(** * The auto-ingress operator: a shallow embedding of [auto-ingress-operator.py]

    The operator has one handler with design content, [manage_ingress],
    registered for the create, update and resume events of Services, and a
    logging-only handler for their deletion.  The handler reads its keyword
    arguments, talks to the cluster through a [NetworkingV1Api] client and
    writes to a logger.

    The embedding keeps that shape.  Python dictionaries whose keys are fixed
    by the Kubernetes schema become records with optional fields ([d.get(k)]
    is the field, [None] when the key is missing), the annotation dictionary
    is a [gmap], the client is a type class over an arbitrary store state, and
    the handler runs in a small state-and-exception monad that also records,
    in order, every log record and every client call it makes. *)

From Stdlib Require Import ZArith.
From stdpp Require Import base option list strings pretty gmap fin_maps.

Local Open Scope string_scope.
#[local] Arguments String.append : simpl never.

(** ** Python truthiness *)

Class Truthy (A : Type) := truthy : A → bool.

#[global] Instance truthy_str : Truthy string :=
  λ s, match s with "" => false | _ => true end.
#[global] Instance truthy_int : Truthy Z :=
  λ z, negb (z =? 0)%Z.
#[global] Instance truthy_list {A} : Truthy (list A) :=
  λ l, match l with [] => false | _ => true end.
(** [None] is falsy; any other value keeps its own truth value. *)
#[global] Instance truthy_optional {A} `{Truthy A} : Truthy (option A) :=
  λ o, match o with None => false | Some a => truthy a end.

(** ** The watched Service, as the handler receives it *)

(** One entry of [spec.ports]; [.get('name')] and [.get('port')]. *)
Record ServicePort := {
  port_name : option string;
  port_port : option Z;
}.

(** [spec]; [.get('ports')]. *)
Record ServiceSpec := {
  spec_ports : option (list ServicePort);
}.

(** A [metadata] dictionary; [.get('uid')] and [.get('annotations')]. *)
Record Meta := {
  meta_uid : option string;
  meta_annotations : option (gmap string string);
}.

(** A Service body; [.get('apiVersion')] and [.get('metadata')]. *)
Record Body := {
  body_apiVersion : option string;
  body_metadata : option Meta;
}.

(** ** The Ingress object of the Kubernetes client

    The model classes are plain records holding the fields the operator
    sets. *)

Record V1ServiceBackendPort := {
  sbp_name : option string;
  sbp_number : option Z;
}.

Record V1IngressServiceBackend := {
  isb_name : string;
  isb_port : V1ServiceBackendPort;
}.

Record V1IngressBackend := {
  ib_service : V1IngressServiceBackend;
}.

Record V1HTTPIngressPath := {
  hip_path : string;
  hip_path_type : string;
  hip_backend : V1IngressBackend;
}.

Record V1HTTPIngressRuleValue := {
  hirv_paths : list V1HTTPIngressPath;
}.

Record V1IngressRule := {
  ir_http : V1HTTPIngressRuleValue;
}.

Record V1IngressSpec := {
  is_rules : list V1IngressRule;
}.

Record V1OwnerReference := {
  or_api_version : option string;
  or_kind : string;
  or_name : string;
  or_uid : option string;
  or_controller : bool;
  or_block_owner_deletion : bool;
}.

Record V1ObjectMeta := {
  om_name : string;
  om_annotations : gmap string string;
  om_owner_references : list V1OwnerReference;
}.

Record V1Ingress := {
  ing_api_version : string;
  ing_kind : string;
  ing_metadata : V1ObjectMeta;
  ing_spec : V1IngressSpec;
}.

(** A client model object defines neither [__bool__] nor [__len__]. *)
#[global] Instance truthy_V1Ingress : Truthy V1Ingress := λ _, true.

(** ** Exceptions *)

(** What a client call can raise: an [ApiException], with its [status] and the
    text [str(e)] gives, or an exception of another class (a transport
    failure, say), which no [except ApiException] clause catches. *)
Inductive Exn :=
  | ApiException (status : option Z) (text : string)
  | NonApiException (text : string).

Definition exn_status (e : Exn) : option Z :=
  match e with ApiException st _ => st | NonApiException _ => None end.

Definition exn_str (e : Exn) : string :=
  match e with ApiException _ tx => tx | NonApiException tx => tx end.

Definition is_ApiException (e : Exn) : bool :=
  match e with ApiException _ _ => true | NonApiException _ => false end.

(** [e.status == n] on an [ApiException]. *)
Definition status_eq (e : Exn) (n : Z) : bool :=
  match exn_status e with Some st => (st =? n)%Z | None => false end.

(** ** The store client *)

(** The four calls of [kubernetes.client.NetworkingV1Api] the operator uses,
    over a store state [Store] that is left abstract: a call answers or raises,
    and moves the store. *)
Class NetworkingV1Api (Store : Type) := {
  read_namespaced_ingress (name namespace : string) : Store → (Exn + V1Ingress) * Store;
  create_namespaced_ingress (namespace : string) (body : V1Ingress) :
    Store → (Exn + V1Ingress) * Store;
  replace_namespaced_ingress (name namespace : string) (body : V1Ingress) :
    Store → (Exn + V1Ingress) * Store;
  delete_namespaced_ingress (name namespace : string) : Store → (Exn + unit) * Store;
}.

(** ** What an invocation does, as seen from outside *)

Inductive Level := INFO | WARNING | ERROR.

Inductive Call :=
  | ReadIngress (name namespace : string)
  | CreateIngress (namespace : string) (body : V1Ingress)
  | ReplaceIngress (name namespace : string) (body : V1Ingress)
  | DeleteIngress (name namespace : string).

Inductive Obs :=
  | Logged (level : Level) (msg : string)
  | Called (c : Call).

(** The client calls of a trace, in order. *)
Definition calls (t : list Obs) : list Call :=
  omap (λ o, match o with Called c => Some c | Logged _ _ => None end) t.

Definition same_level (l l' : Level) : bool :=
  match l, l' with
  | INFO, INFO | WARNING, WARNING | ERROR, ERROR => true
  | _, _ => false
  end.

(** The messages a trace logs at one level, in order. *)
Definition logged (l : Level) (t : list Obs) : list string :=
  omap (λ o, match o with
             | Logged l' msg => if same_level l l' then Some msg else None
             | Called _ => None
             end) t.

(** [create], [replace] and [delete] change the store; [read] does not. *)
Definition is_mutation (c : Call) : bool :=
  match c with
  | CreateIngress _ _ | ReplaceIngress _ _ _ | DeleteIngress _ _ => true
  | ReadIngress _ _ => false
  end.

(** The calls of the upsert path. *)
Definition is_upsert_call (c : Call) : bool :=
  match c with
  | ReadIngress _ _ | CreateIngress _ _ | ReplaceIngress _ _ _ => true
  | DeleteIngress _ _ => false
  end.

(** The bodies a trace hands to [create] or [replace], in order. *)
Definition written (t : list Obs) : list V1Ingress :=
  omap (λ c, match c with
             | CreateIngress _ b | ReplaceIngress _ _ b => Some b
             | _ => None
             end) (calls t).

(** ** The handler monad *)

Record Outcome (Store A : Type) := mkOutcome {
  result : Exn + A;
  final : Store;
  trace : list Obs;
}.
Arguments mkOutcome {Store A}.
Arguments result {Store A}.
Arguments final {Store A}.
Arguments trace {Store A}.

Definition M (Store A : Type) : Type := Store → Outcome Store A.

Section Monad.
Context {Store : Type}.

Definition ret {A} (a : A) : M Store A := λ s, mkOutcome (inr a) s [].

Definition raise {A} (e : Exn) : M Store A := λ s, mkOutcome (inl e) s [].

Definition bind {A B} (m : M Store A) (f : A → M Store B) : M Store B := λ s,
  let '(mkOutcome r s1 t1) := m s in
  match r with
  | inl e => mkOutcome (inl e) s1 t1
  | inr a =>
      let '(mkOutcome r2 s2 t2) := f a s1 in
      mkOutcome r2 s2 (t1 ++ t2)
  end.

(** [try: m / except ApiException as e: h e]. *)
Definition try_except_ApiException {A} (m : M Store A) (h : Exn → M Store A)
    : M Store A := λ s,
  let '(mkOutcome r s1 t1) := m s in
  match r with
  | inl e =>
      if is_ApiException e then
        let '(mkOutcome r2 s2 t2) := h e s1 in
        mkOutcome r2 s2 (t1 ++ t2)
      else mkOutcome (inl e) s1 t1
  | inr a => mkOutcome (inr a) s1 t1
  end.

(** The value of an expression that may raise while it is evaluated. *)
Definition evaluate {A} (r : Exn + A) : M Store A := λ s, mkOutcome r s [].

(** [logger.info], [logger.warning], [logger.error]. *)
Definition log (l : Level) (msg : string) : M Store unit :=
  λ s, mkOutcome (inr tt) s [Logged l msg].

(** A client call: noted in the trace, answered by the store. *)
Definition call {A} (c : Call) (op : Store → (Exn + A) * Store) : M Store A :=
  λ s, let '(r, s') := op s in mkOutcome r s' [Called c].
End Monad.

#[global] Instance M_ret {Store} : MRet (M Store) := λ A, ret.
#[global] Instance M_bind {Store} : MBind (M Store) := λ A B f m, bind m f.

(** ** The operator *)

Definition AUTO_INGRESS_ANNOTATION : string := "auto-ingress".

(** [str(a or b)] for a port name and a port number. *)
Definition name_or_number (name : option string) (number : option Z) : string :=
  if truthy name then default "" name
  else match number with Some n => pretty n | None => "None" end.

Section Operator.
Context {Store : Type} `{!NetworkingV1Api Store}.

Definition networking_v1_read (name namespace : string) : M Store V1Ingress :=
  call (ReadIngress name namespace) (read_namespaced_ingress name namespace).
Definition networking_v1_create (namespace : string) (body : V1Ingress) : M Store V1Ingress :=
  call (CreateIngress namespace body) (create_namespaced_ingress namespace body).
Definition networking_v1_replace (name namespace : string) (body : V1Ingress) : M Store V1Ingress :=
  call (ReplaceIngress name namespace body)
       (replace_namespaced_ingress name namespace body).
Definition networking_v1_delete (name namespace : string) : M Store unit :=
  call (DeleteIngress name namespace) (delete_namespaced_ingress name namespace).
End Operator.

(** [ingress_name = f"auto-ingress-{name}-http"] *)
Definition ingress_name (name : string) : string :=
  "auto-ingress-" +:+ name +:+ "-http".

(** [V1ServiceBackendPort(name=...) if service_port_name else
    V1ServiceBackendPort(number=...)] *)
Definition backend_port (service_port_name : option string)
    (service_port_number : option Z) : V1ServiceBackendPort :=
  if truthy service_port_name
  then {| sbp_name := service_port_name; sbp_number := None |}
  else {| sbp_name := None; sbp_number := service_port_number |}.

(** [V1OwnerReference(...)], as the kubernetes client, which is outside the
    repository, builds it: the constructor assigns its arguments through
    validating setters, [api_version] first and [uid] last, and a required
    one that is [None] raises a [ValueError].  [kind] and [name] are strings
    here, and the two flags are given. *)
Definition V1OwnerReference_init (api_version : option string) (kind name : string)
    (uid : option string) (controller block_owner_deletion : bool)
    : Exn + V1OwnerReference :=
  match api_version, uid with
  | None, _ =>
      inl (NonApiException "Invalid value for `api_version`, must not be `None`")
  | Some _, None =>
      inl (NonApiException "Invalid value for `uid`, must not be `None`")
  | Some _, Some _ =>
      inr {| or_api_version := api_version;
             or_kind := kind;
             or_name := name;
             or_uid := uid;
             or_controller := controller;
             or_block_owner_deletion := block_owner_deletion |}
  end.

(** The [V1Ingress(...)] expression around an owner reference that has been
    built. *)
Definition ingress_around (name auto_ingress_path : string)
    (backend_port : V1ServiceBackendPort) (owner : V1OwnerReference) : V1Ingress :=
  {| ing_api_version := "networking.k8s.io/v1";
     ing_kind := "Ingress";
     ing_metadata :=
       {| om_name := ingress_name name;
          om_annotations :=
            {[ "traefik.ingress.kubernetes.io/router.entrypoints" := "web" ]};
          om_owner_references := [owner] |};
     ing_spec :=
       {| is_rules :=
            [ {| ir_http :=
                   {| hirv_paths :=
                        [ {| hip_path := auto_ingress_path;
                             hip_path_type := "Prefix";
                             hip_backend :=
                               {| ib_service :=
                                    {| isb_name := name;
                                       isb_port := backend_port |} |} |} ] |} |} ] |} |}.

(** The [V1Ingress(...)] expression bound to [ingress_def].  Of its nested
    constructor calls only the owner reference can raise, and it is
    evaluated before the rules. *)
Definition ingress_def (name auto_ingress_path : string)
    (backend_port : V1ServiceBackendPort)
    (service_api_version service_uid : option string) : Exn + V1Ingress :=
  match V1OwnerReference_init service_api_version "Service" name service_uid
          true true with
  | inl e => inl e
  | inr owner => inr (ingress_around name auto_ingress_path backend_port owner)
  end.

(** The previous value of the annotation.  [old] is [None] or a body; an
    empty dictionary, which [if old:] skips, has no metadata and gives [None]
    on either path. *)
Definition old_auto_ingress_path_of (old : option Body) : option string :=
  o ← old;
  old_metadata ← body_metadata o;
  old_annotations ← meta_annotations old_metadata;
  old_annotations !! AUTO_INGRESS_ANNOTATION.

Section Handlers.
Context {Store : Type} `{!NetworkingV1Api Store}.

(** The [try] block of the upsert: look the Ingress up, then replace or
    create it. *)
Definition create_or_update (namespace name : string) (ingress_def : V1Ingress)
    : M Store unit :=
  try_except_ApiException
    (existing_ingress ←
       try_except_ApiException
         (i ← networking_v1_read (ingress_name name) namespace; mret (Some i))
         (λ e,
            if negb (status_eq e 404) then
              log ERROR ("Error checking for existing Ingress: " +:+ exn_str e);;
              raise e
            else mret None);
     if truthy existing_ingress then
       log INFO ("Ingress " +:+ ingress_name name +:+ " already exists. Updating.");;
       networking_v1_replace (ingress_name name) namespace ingress_def;;
       mret tt
     else
       log INFO ("Creating new Ingress " +:+ ingress_name name +:+ ".");;
       networking_v1_create namespace ingress_def;;
       mret tt)
    (λ e,
       log ERROR ("Failed to create or update Ingress " +:+ ingress_name name
                  +:+ ": " +:+ exn_str e);;
       raise e).

(** The [try] block of the removal. *)
Definition delete_ingress (name namespace : string) : M Store unit :=
  try_except_ApiException
    (networking_v1_delete (ingress_name name) namespace;;
     log INFO ("Successfully deleted Ingress " +:+ ingress_name name +:+ "."))
    (λ e,
       if status_eq e 404 then
         log INFO ("Ingress " +:+ ingress_name name +:+ " already deleted.")
       else
         log ERROR ("Failed to delete Ingress " +:+ ingress_name name
                    +:+ ": " +:+ exn_str e);;
         raise e).

(** The handler of the create, update and resume events.  [status],
    [labels], [diff] and the other keyword arguments are not read; the
    [logger] is the trace. *)
Definition manage_ingress (spec : ServiceSpec) (meta : Meta) (body : Body)
    (namespace name : string) (annotations : gmap string string)
    (old : option Body) : M Store unit :=
  log INFO ("Processing service " +:+ namespace +:+ "/" +:+ name);;
  let auto_ingress_path := annotations !! AUTO_INGRESS_ANNOTATION in
  let old_auto_ingress_path := old_auto_ingress_path_of old in
  if truthy auto_ingress_path then
    let path := default "" auto_ingress_path in
    log INFO ("Found/Updated 'auto-ingress: " +:+ path
              +:+ "' annotation for service " +:+ namespace +:+ "/" +:+ name
              +:+ ".");;
    let ports := spec_ports spec in
    match ports with
    | None | Some [] =>
        (* [not ports]: the key is missing or the list is empty *)
        log WARNING ("Service " +:+ namespace +:+ "/" +:+ name
                     +:+ " has no ports defined. Cannot create/update Ingress.")
    | Some (port_info :: _) =>
        let service_port_name := port_name port_info in
        let service_port_number := port_port port_info in
        if negb (truthy service_port_name) && negb (truthy service_port_number) then
          log WARNING ("Service " +:+ namespace +:+ "/" +:+ name
                       +:+ " has no name or port defined for the first port entry. Cannot create/update Ingress.")
        else
          let backend_port := backend_port service_port_name service_port_number in
          log INFO ("Using service port '"
                    +:+ name_or_number service_port_name service_port_number
                    +:+ "' for Ingress backend.");;
          let service_uid := meta_uid meta in
          let service_api_version := body_apiVersion body in
          ingress_def ←
            evaluate (ingress_def name path backend_port service_api_version
                        service_uid);
          log INFO ("Creating/Updating Ingress " +:+ ingress_name name
                    +:+ " in namespace " +:+ namespace +:+ " with path '"
                    +:+ path +:+ "' pointing to service port '"
                    +:+ name_or_number service_port_name service_port_number
                    +:+ "'");;
          create_or_update namespace name ingress_def
    end
  else
    log INFO ("No 'auto-ingress' annotation found for service " +:+ namespace
              +:+ "/" +:+ name +:+ ".");;
    if truthy old_auto_ingress_path then
      log INFO ("'auto-ingress' annotation was removed. Deleting Ingress "
                +:+ ingress_name name +:+ ".");;
      delete_ingress name namespace
    else
      log INFO ("Ingress " +:+ ingress_name name
                +:+ " does not need to be created or deleted.").

(** The handler of the delete event: it logs, and leaves the Ingress to the
    garbage collector. *)
Definition log_service_deletion (meta : Meta) (name namespace : string) : M Store unit :=
  log INFO ("Service " +:+ namespace +:+ "/" +:+ name
            +:+ " deleted. Corresponding Ingress (if any) will be garbage-collected.").
End Handlers.

(** ** The conditions of the decision table, as the handler tests them *)

(** [if auto_ingress_path:] — the annotation is there and is not the empty
    string. *)
Definition annotation_set (annotations : gmap string string) : bool :=
  truthy (annotations !! AUTO_INGRESS_ANNOTATION).

(** [if old_auto_ingress_path:] *)
Definition prior_annotation_set (old : option Body) : bool :=
  truthy (old_auto_ingress_path_of old).

(** [not ports] *)
Definition no_ports (spec : ServiceSpec) : bool :=
  negb (truthy (spec_ports spec)).

(** [not service_port_name and not service_port_number], on [ports[0]]. *)
Definition first_port_unusable (spec : ServiceSpec) : bool :=
  match spec_ports spec with
  | Some (port_info :: _) =>
      negb (truthy (port_name port_info)) && negb (truthy (port_port port_info))
  | _ => false
  end.

Definition valid_ports (spec : ServiceSpec) : bool :=
  negb (no_ports spec) && negb (first_port_unusable spec).

(** The runs that make no client call: the annotation is set but the ports
    are not valid, or the annotation is not set and was not set before. *)
Definition left_alone (spec : ServiceSpec) (annotations : gmap string string)
    (old : option Body) : bool :=
  if annotation_set annotations then negb (valid_ports spec)
  else negb (prior_annotation_set old).

(** The definition an upsert writes for a Service: the annotation value is
    the path, the first port the backend; there is none when its
    construction raises. *)
Definition desired_ingress (spec : ServiceSpec) (meta : Meta) (body : Body)
    (name : string) (annotations : gmap string string) : option V1Ingress :=
  path ← annotations !! AUTO_INGRESS_ANNOTATION;
  port_info ← spec_ports spec ≫= head;
  match ingress_def name path
          (backend_port (port_name port_info) (port_port port_info))
          (body_apiVersion body) (meta_uid meta) with
  | inr def => Some def
  | inl _ => None
  end.

(** What the construction of the owner reference does for a Service: the
    exception it raises, or a normal return. *)
Definition owner_reference_outcome (meta : Meta) (body : Body) (name : string)
    : Exn + unit :=
  match V1OwnerReference_init (body_apiVersion body) "Service" name (meta_uid meta)
          true true with
  | inl e => inl e
  | inr _ => inr tt
  end.

(** The backend ports of an Ingress, over all its rules and paths. *)
Definition backend_ports (b : V1Ingress) : list V1ServiceBackendPort :=
  r ← is_rules (ing_spec b);
  p ← hirv_paths (ir_http r);
  [isb_port (ib_service (hip_backend p))].

(** ** The store *)

(** Modelled from the spec: the resource store of section 6, which is outside
    the repository.  A store holds Ingresses by namespace and name; [get]
    answers with the object or not-found, [create] adds an object under its
    own name, [replace] overwrites the object of that name, [delete] removes
    it or answers not-found.  Not-found is status 404. *)
#[global] Instance mem_store : NetworkingV1Api (gmap (string * string) V1Ingress) := {|
  read_namespaced_ingress name namespace m :=
    match m !! (namespace, name) with
    | Some i => (inr i, m)
    | None => (inl (ApiException (Some 404%Z) "Not Found"), m)
    end;
  create_namespaced_ingress namespace body m :=
    match m !! (namespace, om_name (ing_metadata body)) with
    | Some _ => (inl (ApiException (Some 409%Z) "Conflict"), m)
    | None => (inr body, <[(namespace, om_name (ing_metadata body)) := body]> m)
    end;
  replace_namespaced_ingress name namespace body m :=
    match m !! (namespace, name) with
    | Some _ => (inr body, <[(namespace, name) := body]> m)
    | None => (inl (ApiException (Some 404%Z) "Not Found"), m)
    end;
  delete_namespaced_ingress name namespace m :=
    match m !! (namespace, name) with
    | Some _ => (inr tt, delete (namespace, name) m)
    | None => (inl (ApiException (Some 404%Z) "Not Found"), m)
    end;
|}.

(** Modelled from the spec: what section 6 promises of any store, reliable or
    not.  [content] reads a store state as the Ingresses it holds.  A call
    that answers has had its effect; a lookup or a delete that raises 404
    found nothing under the name; nothing is promised of a call that raises
    anything else. *)
Class StoreContract (Store : Type) `{!NetworkingV1Api Store}
    (content : Store → gmap (string * string) V1Ingress) : Prop := {
  read_found name namespace s i s' :
    read_namespaced_ingress name namespace s = (inr i, s') →
    content s' = content s ∧ content s !! (namespace, name) = Some i;
  read_not_found name namespace s tx s' :
    read_namespaced_ingress name namespace s = (inl (ApiException (Some 404%Z) tx), s') →
    content s' = content s ∧ content s !! (namespace, name) = None;
  create_done namespace body s r s' :
    create_namespaced_ingress namespace body s = (inr r, s') →
    content s' = <[(namespace, om_name (ing_metadata body)) := body]> (content s);
  replace_done name namespace body s r s' :
    replace_namespaced_ingress name namespace body s = (inr r, s') →
    content s' = <[(namespace, name) := body]> (content s);
  delete_done name namespace s r s' :
    delete_namespaced_ingress name namespace s = (inr r, s') →
    content s' = delete (namespace, name) (content s);
  delete_not_found name namespace s tx s' :
    delete_namespaced_ingress name namespace s = (inl (ApiException (Some 404%Z) tx), s') →
    content s' = content s ∧ content s !! (namespace, name) = None;
}.

(** Consecutive runs of the handler on one Service state: the store after [n]
    runs, when none of them raised. *)
Fixpoint reconcile_times {Store : Type} `{!NetworkingV1Api Store} (n : nat)
    (spec : ServiceSpec) (meta : Meta) (body : Body) (namespace name : string)
    (annotations : gmap string string) (old : option Body) (s : Store) : option Store :=
  match n with
  | O => Some s
  | S n' =>
      let o := manage_ingress spec meta body namespace name annotations old s in
      match result o with
      | inr _ => reconcile_times n' spec meta body namespace name annotations old (final o)
      | inl _ => None
      end
  end.

(** ** The convergence claim, as the specification words it *)

(** Invariant I1 and property P2, read on the in-memory store: after any run
    that returns normally the Ingress of the Service exists if and only if
    the annotation is set and the ports are valid. *)
Definition convergence_as_claimed : Prop :=
  ∀ (spec : ServiceSpec) (meta : Meta) (body : Body) (namespace name : string)
    (annotations : gmap string string) (old : option Body)
    (m : gmap (string * string) V1Ingress),
    let o := manage_ingress spec meta body namespace name annotations old m in
    result o = inr tt →
    is_Some (final o !! (namespace, ingress_name name)) ↔
    annotation_set annotations && valid_ports spec = true.

(** ** What a run does, logs aside *)

(** The result, the store left behind and the client calls of an outcome. *)
Definition effect {Store A} (o : Outcome Store A) : (Exn + A) * Store * list Call :=
  (result o, final o, calls (trace o)).

(** A client answer whose value is dropped. *)
Definition discard {A} (r : Exn + A) : Exn + unit :=
  match r with inl e => inl e | inr _ => inr tt end.

Ltac unfold_handler :=
  cbv [manage_ingress create_or_update delete_ingress
       networking_v1_read networking_v1_create networking_v1_replace
       networking_v1_delete mbind mret M_bind M_ret bind ret raise
       try_except_ApiException evaluate log call];
  cbn [result final trace].

Ltac reduce :=
  cbn [result final trace is_ApiException status_eq exn_status negb truthy
       truthy_optional truthy_V1Ingress discard].

(** Case analysis on the status of the exception at hand, else on the next
    client answer. *)
Ltac answer :=
  reduce;
  match goal with
  | |- context [(?st =? 404)%Z] => destruct (st =? 404)%Z
  | |- context [read_namespaced_ingress ?n ?ns ?s] =>
      destruct (read_namespaced_ingress n ns s) as [[[[?st|] ?tx|?tx]|?i] ?s1]
  | |- context [replace_namespaced_ingress ?n ?ns ?b ?s] =>
      destruct (replace_namespaced_ingress n ns b s) as [[[[?st|] ?tx|?tx]|?i] ?s2]
  | |- context [create_namespaced_ingress ?ns ?b ?s] =>
      destruct (create_namespaced_ingress ns b s) as [[[[?st|] ?tx|?tx]|?i] ?s2]
  | |- context [delete_namespaced_ingress ?n ?ns ?s] =>
      destruct (delete_namespaced_ingress n ns s) as [[[[?st|] ?tx|?tx]|[]] ?s1]
  end; reduce.

(** Whether a run ended in an [ApiException]. *)
Definition raised_ApiException {A} (r : Exn + A) : bool :=
  match r with inl e => is_ApiException e | inr _ => false end.

(** The namespace and the name a client call addresses; a create names its
    object in the body. *)
Definition call_target (c : Call) : string * string :=
  match c with
  | ReadIngress name namespace | ReplaceIngress name namespace _
  | DeleteIngress name namespace => (namespace, name)
  | CreateIngress namespace body => (namespace, om_name (ing_metadata body))
  end.

(** A store double for the examples: it answers each call, whatever the
    call, with the next entry of a script, and raises an error of its own
    when the script has run out. *)
Definition scripted {A} (f : V1Ingress → A) (script : list (Exn + V1Ingress))
    : (Exn + A) * list (Exn + V1Ingress) :=
  match script with
  | [] => (inl (NonApiException "script exhausted"), [])
  | inl e :: rest => (inl e, rest)
  | inr i :: rest => (inr (f i), rest)
  end.

#[global] Instance scripted_store : NetworkingV1Api (list (Exn + V1Ingress)) := {|
  read_namespaced_ingress _ _ := scripted id;
  create_namespaced_ingress _ _ := scripted id;
  replace_namespaced_ingress _ _ _ := scripted id;
  delete_namespaced_ingress _ _ := scripted (λ _, tt);
|}.

(** An equation between closed terms, checked by evaluating its left side. *)
Ltac by_evaluation :=
  lazymatch goal with |- _ = ?rhs => vm_cast_no_check (@eq_refl _ rhs) end.

(** ** The scenarios of the specification, as data *)

Module Scenario.
(** Service [svc1] of namespace [ns1], one port named [http]. *)
Definition http : ServicePort :=
  {| port_name := Some "http"; port_port := Some 80%Z |}.
Definition ports : list ServicePort := [http].
Definition spec : ServiceSpec := {| spec_ports := Some ports |}.
Definition annotated : gmap string string := {[ AUTO_INGRESS_ANNOTATION := "/svc1" ]}.
Definition meta : Meta :=
  {| meta_uid := Some "0b5e6a2c"; meta_annotations := Some annotated |}.
Definition body : Body :=
  {| body_apiVersion := Some "v1"; body_metadata := Some meta |}.

(** The same Service with the annotation taken away, and with it emptied. *)
Definition bare : gmap string string := ∅.
Definition blank : gmap string string := {[ AUTO_INGRESS_ANNOTATION := "" ]}.
Definition body_of (annotations : gmap string string) : Body :=
  {| body_apiVersion := Some "v1";
     body_metadata :=
       Some {| meta_uid := Some "0b5e6a2c"; meta_annotations := Some annotations |} |}.

(** The Service without ports, and with a first port that says nothing. *)
Definition portless : ServiceSpec := {| spec_ports := Some [] |}.
Definition mute : ServiceSpec :=
  {| spec_ports := Some ({| port_name := None; port_port := None |} :: ports) |}.

(** The Ingress an upsert writes for [svc1]. *)
Definition ingress : V1Ingress :=
  ingress_around "svc1" "/svc1" {| sbp_name := Some "http"; sbp_number := None |}
  {| or_api_version := Some "v1"; or_kind := "Service"; or_name := "svc1";
     or_uid := Some "0b5e6a2c"; or_controller := true;
     or_block_owner_deletion := true |}.

Definition empty_store : gmap (string * string) V1Ingress := ∅.
Definition store_with_ingress : gmap (string * string) V1Ingress :=
  {[ ("ns1", "auto-ingress-svc1-http") := ingress ]}.
(** Answers of a store in trouble. *)
Definition forbidden : Exn := ApiException (Some 403%Z) "Forbidden".
Definition not_found : Exn := ApiException (Some 404%Z) "Not Found".
Definition conflict : Exn := ApiException (Some 409%Z) "Conflict".
End Scenario.

(** * Properties *)

Section Effects.
Context {Store : Type} `{!NetworkingV1Api Store}.
Implicit Types (spec : ServiceSpec) (meta : Meta) (body : Body)
  (namespace name : string) (annotations : gmap string string)
  (old : option Body) (s : Store).

Lemma effect_result {A} (o : Outcome Store A) x : effect o = x → result o = x.1.1.
Proof. by intros <-. Qed.

Lemma effect_final {A} (o : Outcome Store A) x : effect o = x → final o = x.1.2.
Proof. by intros <-. Qed.

Lemma effect_calls {A} (o : Outcome Store A) x : effect o = x → calls (trace o) = x.2.
Proof. by intros <-. Qed.

Lemma create_or_update_effect namespace name def s :
  effect (create_or_update namespace name def s) =
  let '(r, s1) := read_namespaced_ingress (ingress_name name) namespace s in
  match r with
  | inr _ =>
      let '(r2, s2) := replace_namespaced_ingress (ingress_name name) namespace def s1 in
      (discard r2, s2, [ReadIngress (ingress_name name) namespace;
                        ReplaceIngress (ingress_name name) namespace def])
  | inl e =>
      if status_eq e 404 then
        let '(r2, s2) := create_namespaced_ingress namespace def s1 in
        (discard r2, s2, [ReadIngress (ingress_name name) namespace;
                          CreateIngress namespace def])
      else (inl e, s1, [ReadIngress (ingress_name name) namespace])
  end.
Proof. unfold effect. unfold_handler. repeat answer; reflexivity. Qed.

Lemma delete_ingress_effect name namespace s :
  effect (delete_ingress name namespace s) =
  let '(r, s1) := delete_namespaced_ingress (ingress_name name) namespace s in
  (match r with
   | inr _ => inr tt
   | inl e => if status_eq e 404 then inr tt else inl e
   end, s1, [DeleteIngress (ingress_name name) namespace]).
Proof. unfold effect. unfold_handler. repeat answer; reflexivity. Qed.

(** The decision table of the handler. *)
Lemma manage_ingress_effect spec meta body namespace name annotations old s :
  effect (manage_ingress spec meta body namespace name annotations old s) =
  if annotation_set annotations then
    match valid_ports spec, desired_ingress spec meta body name annotations with
    | true, Some def => effect (create_or_update namespace name def s)
    | true, None => (owner_reference_outcome meta body name, s, [])
    | false, _ => (inr tt, s, [])
    end
  else if prior_annotation_set old then effect (delete_ingress name namespace s)
  else (inr tt, s, []).
Proof.
  unfold annotation_set, prior_annotation_set, valid_ports, no_ports,
    first_port_unusable, desired_ingress, owner_reference_outcome, effect.
  unfold manage_ingress. cbv [mbind M_bind bind log evaluate]. cbn [result final trace].
  destruct (annotations !! AUTO_INGRESS_ANNOTATION) as [[|c path]|]; cbn.
  1, 3: destruct (truthy (old_auto_ingress_path_of old));
    [by destruct (delete_ingress name namespace s)|reflexivity].
  destruct spec as [[[|[pn pp] rest]|]]; cbn; try reflexivity.
  destruct (negb (truthy pn) && negb (truthy pp)); [reflexivity|]. cbn.
  unfold ingress_def.
  destruct (V1OwnerReference_init _ _ _ _ _ _) as [e|owner]; [reflexivity|].
  by destruct (create_or_update _ _ _ s).
Qed.

(** The owner reference is built exactly when the body has an apiVersion and
    the Service a uid. *)
Lemma owner_reference_outcome_normal meta body name :
  owner_reference_outcome meta body name = inr tt ↔
  is_Some (body_apiVersion body) ∧ is_Some (meta_uid meta).
Proof.
  unfold owner_reference_outcome, V1OwnerReference_init.
  destruct (body_apiVersion body), (meta_uid meta); split; try done.
  - by intros [_ [? ?]].
  - by intros [[? ?] _].
  - by intros [[? ?] _].
Qed.

(** What the construction raises is not an [ApiException]. *)
Lemma owner_reference_outcome_not_api meta body name :
  raised_ApiException (owner_reference_outcome meta body name) = false.
Proof.
  unfold owner_reference_outcome, V1OwnerReference_init.
  by destruct (body_apiVersion body), (meta_uid meta).
Qed.

(** With the annotation set and usable ports there is a definition to
    write, named after the Service, exactly when the owner reference can be
    built. *)
Lemma desired_ingress_built spec meta body name annotations :
  annotation_set annotations = true → valid_ports spec = true →
  match desired_ingress spec meta body name annotations with
  | Some _ => owner_reference_outcome meta body name = inr tt
  | None => ∃ e, owner_reference_outcome meta body name = inl e
  end.
Proof.
  unfold annotation_set, valid_ports, no_ports, desired_ingress,
    owner_reference_outcome, ingress_def.
  destruct (annotations !! AUTO_INGRESS_ANNOTATION); [|discriminate].
  destruct spec as [[[|p rest]|]]; cbn; try discriminate. intros _ _.
  destruct (V1OwnerReference_init _ _ _ _ _ _); eauto.
Qed.

Lemma desired_ingress_defined spec meta body name annotations :
  annotation_set annotations = true → valid_ports spec = true →
  is_Some (body_apiVersion body) → is_Some (meta_uid meta) →
  ∃ def, desired_ingress spec meta body name annotations = Some def.
Proof.
  intros Ha Hv Hapi Huid.
  pose proof (desired_ingress_built spec meta body name annotations Ha Hv) as Hb.
  destruct (desired_ingress spec meta body name annotations) as [def|]; [eauto|].
  destruct Hb as [e He].
  by rewrite (proj2 (owner_reference_outcome_normal meta body name) (conj Hapi Huid)) in He.
Qed.

(** A run of the upsert path that returns normally had a definition to
    write. *)
Lemma normal_return_has_definition spec meta body namespace name annotations old s :
  annotation_set annotations = true → valid_ports spec = true →
  result (manage_ingress spec meta body namespace name annotations old s) = inr tt →
  ∃ def, desired_ingress spec meta body name annotations = Some def.
Proof.
  intros Ha Hv.
  rewrite (effect_result _ _ (manage_ingress_effect _ _ _ _ _ _ _ _)), Ha, Hv.
  pose proof (desired_ingress_built spec meta body name annotations Ha Hv) as Hb.
  destruct (desired_ingress spec meta body name annotations) as [def|]; [eauto|].
  destruct Hb as [e ->]. done.
Qed.

Lemma desired_ingress_name spec meta body name annotations def :
  desired_ingress spec meta body name annotations = Some def →
  om_name (ing_metadata def) = ingress_name name.
Proof.
  unfold desired_ingress, ingress_def.
  destruct (annotations !! AUTO_INGRESS_ANNOTATION); [|discriminate].
  destruct (spec_ports spec ≫= head); [|discriminate]. cbn.
  destruct (V1OwnerReference_init _ _ _ _ _ _); [discriminate|].
  intros [= <-]. reflexivity.
Qed.

(** The definition, taken apart. *)
Lemma desired_ingress_inv spec meta body name annotations def :
  desired_ingress spec meta body name annotations = Some def →
  ∃ path port_info,
    annotations !! AUTO_INGRESS_ANNOTATION = Some path ∧
    spec_ports spec ≫= head = Some port_info ∧
    def = ingress_around name path
            (backend_port (port_name port_info) (port_port port_info))
            {| or_api_version := body_apiVersion body; or_kind := "Service";
               or_name := name; or_uid := meta_uid meta;
               or_controller := true; or_block_owner_deletion := true |}.
Proof.
  unfold desired_ingress, ingress_def, V1OwnerReference_init.
  destruct (annotations !! AUTO_INGRESS_ANNOTATION) as [path|]; [|discriminate].
  destruct (spec_ports spec ≫= head) as [p|]; [|discriminate]. cbn.
  destruct (body_apiVersion body), (meta_uid meta); try discriminate.
  intros [= <-]. by exists path, p.
Qed.

(** Whatever a run writes is the definition computed from its arguments. *)
Lemma written_is_desired spec meta body namespace name annotations old s b :
  b ∈ written (trace (manage_ingress spec meta body namespace name annotations old s)) →
  desired_ingress spec meta body name annotations = Some b.
Proof.
  unfold written.
  rewrite (effect_calls _ _ (manage_ingress_effect _ _ _ _ _ _ _ _)).
  destruct (annotation_set annotations).
  - destruct (valid_ports spec), (desired_ingress spec meta body name annotations) as [def|];
      try (cbn; by intros ?%elem_of_nil).
    rewrite create_or_update_effect.
    destruct (read_namespaced_ingress _ _ s) as [[e|i] s1].
    + destruct (status_eq e 404).
      * destruct (create_namespaced_ingress _ _ s1) as [r2 s2].
        cbn. by intros ->%list_elem_of_singleton.
      * cbn. by intros ?%elem_of_nil.
    + destruct (replace_namespaced_ingress _ _ _ s1) as [r2 s2].
      cbn. by intros ->%list_elem_of_singleton.
  - destruct (prior_annotation_set old).
    + rewrite delete_ingress_effect.
      destruct (delete_namespaced_ingress _ _ s) as [r s1].
      cbn. by intros ?%elem_of_nil.
    + cbn. by intros ?%elem_of_nil.
Qed.
End Effects.

(** ** The claims that hold of every store *)

Section Reconciler.
Context {Store : Type} `{!NetworkingV1Api Store}.
Implicit Types (spec : ServiceSpec) (meta : Meta) (body : Body)
  (namespace name : string) (annotations : gmap string string)
  (old : option Body) (s : Store).

(** C3. Input-validation failure is non-fatal and mutation-free: when the
    current annotation is set (present and not empty) and the Service has
    no ports, or its first port has neither a name nor a number, the
    handler returns normally, logs exactly one warning and no error, makes
    no client call of any kind and leaves the store as it was. *)
Theorem validation_failure_is_harmless spec meta body namespace name annotations old s :
  annotation_set annotations = true →
  no_ports spec = true ∨ first_port_unusable spec = true →
  let o := manage_ingress spec meta body namespace name annotations old s in
  result o = inr tt ∧ final o = s ∧ calls (trace o) = [] ∧
  length (logged WARNING (trace o)) = 1%nat ∧ logged ERROR (trace o) = [].
Proof.
  unfold annotation_set, no_ports, first_port_unusable. intros Ha Hp.
  unfold_handler. rewrite Ha.
  destruct spec as [[[|[pn pp] rest]|]]; cbn in Hp |- *.
  - done.
  - destruct Hp as [Hp|Hp]; [discriminate|]. by rewrite Hp.
  - done.
Qed.

(** C4. Removal: when the current annotation is not set and the prior
    annotation was, the handler makes exactly one client call, the delete
    of [auto-ingress-<name>-http] in the event's namespace; it makes no
    create and no replace call. *)
Theorem removal_issues_one_delete spec meta body namespace name annotations old s :
  annotation_set annotations = false →
  prior_annotation_set old = true →
  calls (trace (manage_ingress spec meta body namespace name annotations old s))
  = [DeleteIngress ("auto-ingress-" +:+ name +:+ "-http") namespace].
Proof.
  intros Ha Hp.
  rewrite (effect_calls _ _ (manage_ingress_effect _ _ _ _ _ _ _ _)), Ha, Hp.
  rewrite delete_ingress_effect.
  by destruct (delete_namespaced_ingress _ _ s).
Qed.

(** C5. Upsert lookup branching: with the annotation set and usable ports,
    for a Service that has its uid and apiVersion (the owner reference can
    be built), the handler first looks the Ingress up by its deterministic
    name.  A
    lookup that answers is followed by exactly one replace call carrying
    the freshly computed definition, whatever the object found; a lookup
    that raises 404 is followed by exactly one create call; a lookup that
    raises anything else is the only call made, and its exception is the
    result of the run. *)
Theorem upsert_lookup_branching spec meta body namespace name annotations old s :
  annotation_set annotations = true →
  valid_ports spec = true →
  is_Some (body_apiVersion body) →
  is_Some (meta_uid meta) →
  let o := manage_ingress spec meta body namespace name annotations old s in
  let lookup := read_namespaced_ingress (ingress_name name) namespace s in
  ∃ def, desired_ingress spec meta body name annotations = Some def ∧
    (∀ found, lookup.1 = inr found →
       calls (trace o) = [ReadIngress (ingress_name name) namespace;
                          ReplaceIngress (ingress_name name) namespace def]) ∧
    (∀ e, lookup.1 = inl e → status_eq e 404 = true →
       calls (trace o) = [ReadIngress (ingress_name name) namespace;
                          CreateIngress namespace def]) ∧
    (∀ e, lookup.1 = inl e → status_eq e 404 = false →
       calls (trace o) = [ReadIngress (ingress_name name) namespace] ∧
       result o = inl e).
Proof.
  intros Ha Hv Hapi Huid o lookup.
  destruct (desired_ingress_defined spec meta body name annotations Ha Hv Hapi Huid)
    as [def Hdef].
  exists def. split; [done|].
  subst o.
  rewrite (effect_calls _ _ (manage_ingress_effect _ _ _ _ _ _ _ _)),
    (effect_result _ _ (manage_ingress_effect _ _ _ _ _ _ _ _)), Ha, Hv, Hdef.
  rewrite create_or_update_effect. subst lookup.
  destruct (read_namespaced_ingress _ _ s) as [r s1]. cbn [fst].
  split; [|split].
  - intros found ->. by destruct (replace_namespaced_ingress _ _ _ s1).
  - intros e -> ->. by destruct (create_namespaced_ingress _ _ s1).
  - by intros e -> ->.
Qed.

(** C6. Delete idempotence: on the delete path a 404 from the delete call
    counts as success, the handler returns normally and logs no error; a
    delete call that raises anything else has its exception as the result
    of the run. *)
Theorem delete_not_found_is_success spec meta body namespace name annotations old s :
  annotation_set annotations = false →
  prior_annotation_set old = true →
  let o := manage_ingress spec meta body namespace name annotations old s in
  let answer := delete_namespaced_ingress (ingress_name name) namespace s in
  (∀ e, answer.1 = inl e → status_eq e 404 = true →
     result o = inr tt ∧ logged ERROR (trace o) = []) ∧
  (∀ e, answer.1 = inl e → status_eq e 404 = false → result o = inl e).
Proof.
  unfold annotation_set, prior_annotation_set. intros Ha Hp.
  unfold_handler. rewrite Ha, Hp. reduce.
  destruct (delete_namespaced_ingress _ _ s) as [[[[st|] tx|tx]|[]] s1];
    cbn [fst]; (split; intros e [= <-]); reduce; try done.
  - intros ->. done.
  - intros ->. done.
Qed.

(** C7. The produced artifact is field-exact: every definition handed to
    create or replace is named [auto-ingress-<name>-http], carries the one
    entry-point annotation, has one owner reference (the body's apiVersion,
    kind Service, the Service's name and uid, controller and
    blockOwnerDeletion true) and one rule with one HTTP path whose path is
    the annotation value, whose type is Prefix and whose backend service is
    the Service's name. *)
Theorem written_ingress_is_field_exact spec meta body namespace name annotations old s b :
  b ∈ written (trace (manage_ingress spec meta body namespace name annotations old s)) →
  ∃ path port,
    annotations !! AUTO_INGRESS_ANNOTATION = Some path ∧
    om_name (ing_metadata b) = "auto-ingress-" +:+ name +:+ "-http" ∧
    om_annotations (ing_metadata b)
    = {[ "traefik.ingress.kubernetes.io/router.entrypoints" := "web" ]} ∧
    om_owner_references (ing_metadata b)
    = [ {| or_api_version := body_apiVersion body; or_kind := "Service";
           or_name := name; or_uid := meta_uid meta;
           or_controller := true; or_block_owner_deletion := true |} ] ∧
    is_rules (ing_spec b)
    = [ {| ir_http :=
             {| hirv_paths :=
                  [ {| hip_path := path; hip_path_type := "Prefix";
                       hip_backend :=
                         {| ib_service :=
                              {| isb_name := name; isb_port := port |} |} |} ] |} |} ].
Proof.
  intros (path & p & Hpath & _ & ->)%written_is_desired%desired_ingress_inv.
  exists path, (backend_port (port_name p) (port_port p)). done.
Qed.

(** C8. First-port selection with name preference: the handler runs on a
    port list exactly as it runs on the list of its first entry alone, and
    the backend of whatever it writes is that entry's name when the name is
    set and that entry's number otherwise. *)
Theorem first_port_decides meta body namespace name annotations old s port_info rest :
  let run ports :=
    manage_ingress {| spec_ports := Some ports |} meta body namespace name
      annotations old s in
  run (port_info :: rest) = run [port_info] ∧
  ∀ b, b ∈ written (trace (run (port_info :: rest))) →
    backend_ports b
    = [ if truthy (port_name port_info)
        then {| sbp_name := port_name port_info; sbp_number := None |}
        else {| sbp_name := None; sbp_number := port_port port_info |} ].
Proof.
  intros run. split; [reflexivity|].
  intros b (path & p & _ & [= <-] & ->)%written_is_desired%desired_ingress_inv.
  reflexivity.
Qed.

(** C9. At most one store-mutating call per event: whatever the arguments
    and whatever the store answers, one run makes at most one call among
    create, replace and delete. *)
Theorem at_most_one_mutation spec meta body namespace name annotations old s :
  (length (List.filter is_mutation
     (calls (trace (manage_ingress spec meta body namespace name annotations old s))))
   ≤ 1)%nat.
Proof.
  rewrite (effect_calls _ _ (manage_ingress_effect _ _ _ _ _ _ _ _)).
  destruct (annotation_set annotations).
  - destruct (valid_ports spec), (desired_ingress spec meta body name annotations);
      try (cbn; lia).
    rewrite create_or_update_effect.
    destruct (read_namespaced_ingress _ _ s) as [[e|i] s1].
    + destruct (status_eq e 404); [|cbn; lia].
      destruct (create_namespaced_ingress _ _ s1). cbn. lia.
    + destruct (replace_namespaced_ingress _ _ _ s1). cbn. lia.
  - destruct (prior_annotation_set old); [|cbn; lia].
    rewrite delete_ingress_effect.
    destruct (delete_namespaced_ingress _ _ s). cbn. lia.
Qed.

(** C10. An empty annotation value is an absent one.  With the key present
    and the value empty the handler runs exactly as it runs with the key
    removed, and makes no lookup, create or replace call; and with the
    current annotation not set, a prior annotation whose value was empty
    triggers no call at all. *)
Theorem empty_annotation_is_absent spec meta body namespace name annotations old s :
  (annotations !! AUTO_INGRESS_ANNOTATION = Some "" →
     manage_ingress spec meta body namespace name annotations old s
     = manage_ingress spec meta body namespace name
         (delete AUTO_INGRESS_ANNOTATION annotations) old s ∧
     List.filter is_upsert_call
       (calls (trace (manage_ingress spec meta body namespace name annotations old s)))
     = []) ∧
  (annotation_set annotations = false →
     old_auto_ingress_path_of old = Some "" →
     effect (manage_ingress spec meta body namespace name annotations old s)
     = (inr tt, s, [])).
Proof.
  split.
  - intros Ha. split.
    + unfold manage_ingress. by rewrite lookup_delete_eq, Ha.
    + rewrite (effect_calls _ _ (manage_ingress_effect _ _ _ _ _ _ _ _)).
      unfold annotation_set. rewrite Ha. cbn [truthy truthy_optional truthy_str].
      destruct (prior_annotation_set old); [|done].
      rewrite delete_ingress_effect.
      by destruct (delete_namespaced_ingress _ _ s).
  - intros Ha Hold. rewrite manage_ingress_effect, Ha.
    unfold prior_annotation_set. by rewrite Hold.
Qed.
End Reconciler.

(** ** The claims about the store's content *)

(** The in-memory store keeps the promises of section 6. *)
#[global] Instance mem_store_contract : StoreContract (gmap (string * string) V1Ingress) id.
Proof.
  split; unfold id; cbn; intros *.
  - destruct (s !! (namespace, name)) eqn:E; intros [= <- <-]. done.
  - destruct (s !! (namespace, name)) eqn:E; intros [= <- <-]. done.
  - by destruct (s !! (namespace, om_name (ing_metadata body))); intros [= <- <-].
  - by destruct (s !! (namespace, name)); intros [= <- <-].
  - by destruct (s !! (namespace, name)); intros [= <- <-].
  - destruct (s !! (namespace, name)) eqn:E; intros [= <- <-]. done.
Qed.

Section Content.
Context {Store : Type} `{!NetworkingV1Api Store}.
Context (content : Store → gmap (string * string) V1Ingress).
Context `{!StoreContract Store content}.
Implicit Types (spec : ServiceSpec) (meta : Meta) (body : Body)
  (namespace name : string) (annotations : gmap string string)
  (old : option Body) (s : Store).

(** The content a run leaves behind when it returns normally. *)
Lemma manage_ingress_content spec meta body namespace name annotations old s :
  let o := manage_ingress spec meta body namespace name annotations old s in
  let k := (namespace, ingress_name name) in
  result o = inr tt →
  content (final o) =
  if annotation_set annotations then
    match valid_ports spec, desired_ingress spec meta body name annotations with
    | true, Some def => <[k := def]> (content s)
    | _, _ => content s
    end
  else if prior_annotation_set old then delete k (content s)
  else content s.
Proof.
  intros o k. subst o.
  rewrite (effect_result _ _ (manage_ingress_effect _ _ _ _ _ _ _ _)),
    (effect_final _ _ (manage_ingress_effect _ _ _ _ _ _ _ _)).
  destruct (annotation_set annotations).
  - destruct (valid_ports spec); [|done].
    destruct (desired_ingress spec meta body name annotations) as [def|] eqn:Hdef; [|done].
    rewrite create_or_update_effect.
    destruct (read_namespaced_ingress _ _ s) as [[e|i] s1] eqn:Hread.
    + destruct e as [[st|] tx|tx]; cbn [status_eq exn_status]; try done.
      destruct (Z.eqb_spec st 404) as [->|]; [|done].
      apply read_not_found in Hread as [Hs1 _].
      destruct (create_namespaced_ingress _ _ s1) as [[e2|r2] s2] eqn:Hcreate; [done|].
      apply create_done in Hcreate. intros _. cbn.
      by rewrite Hcreate, Hs1, (desired_ingress_name _ _ _ _ _ _ Hdef).
    + apply read_found in Hread as [Hs1 _].
      destruct (replace_namespaced_ingress _ _ _ s1) as [[e2|r2] s2] eqn:Hreplace; [done|].
      apply replace_done in Hreplace. intros _. cbn.
      by rewrite Hreplace, Hs1.
  - destruct (prior_annotation_set old); [|done].
    rewrite delete_ingress_effect.
    destruct (delete_namespaced_ingress _ _ s) as [[e|[]] s1] eqn:Hdelete.
    + destruct e as [[st|] tx|tx]; cbn [status_eq exn_status fst snd]; try done.
      destruct (Z.eqb_spec st 404) as [->|]; [|done].
      apply delete_not_found in Hdelete as [Hs1 Hnone]. intros _.
      by rewrite Hs1, delete_id.
    + apply delete_done in Hdelete. by intros _.
Qed.
End Content.

Section Convergence.
Context {Store : Type} `{!NetworkingV1Api Store}.
Context (content : Store → gmap (string * string) V1Ingress).
Context `{!StoreContract Store content}.
Implicit Types (spec : ServiceSpec) (meta : Meta) (body : Body)
  (namespace name : string) (annotations : gmap string string)
  (old : option Body) (s : Store).

(** C1, as amended.  After a run that returns normally against a store that
    keeps its contract, the Ingress [auto-ingress-<name>-http] exists in
    the namespace if and only if the annotation is set and the ports are
    valid, or the run was one that leaves the store alone (annotation set
    with invalid ports, or annotation not set and no prior annotation set)
    and the Ingress existed before. *)
Theorem existence_after_reconcile spec meta body namespace name annotations old s :
  let o := manage_ingress spec meta body namespace name annotations old s in
  let k := (namespace, ingress_name name) in
  result o = inr tt →
  is_Some (content (final o) !! k) ↔
    annotation_set annotations && valid_ports spec = true ∨
    (left_alone spec annotations old = true ∧ is_Some (content s !! k)).
Proof.
  intros o k Hok. subst o k.
  rewrite (manage_ingress_content content _ _ _ _ _ _ _ _ Hok).
  unfold left_alone.
  destruct (annotation_set annotations) eqn:Ha; cbn [andb].
  - destruct (valid_ports spec) eqn:Hv; cbn [negb].
    + destruct (normal_return_has_definition spec meta body namespace name annotations
                  old s Ha Hv Hok) as [def ->].
      rewrite lookup_insert_eq. split; [by left|by eexists].
    + split; [by right|]. by intros [?|[_ ?]].
  - destruct (prior_annotation_set old); cbn [negb].
    + rewrite lookup_delete_eq. split; [by intros [? ?]|]. by intros [?|[? _]].
    + split; [by right|]. by intros [?|[_ ?]].
Qed.

(** Runs that return normally agree on the content they leave: the
    definition under its name, the rest untouched. *)
Lemma reconcile_times_content spec meta body namespace name annotations old def n :
  annotation_set annotations = true →
  valid_ports spec = true →
  desired_ingress spec meta body name annotations = Some def →
  ∀ s s',
    reconcile_times (S n) spec meta body namespace name annotations old s = Some s' →
    content s' = <[(namespace, ingress_name name) := def]> (content s).
Proof.
  intros Ha Hv Hdef. induction n as [|n IH]; intros s s'.
  - cbn. destruct (result _) as [e|[]] eqn:Hok; [done|]. intros [= <-].
    by rewrite (manage_ingress_content content _ _ _ _ _ _ _ _ Hok), Ha, Hv, Hdef.
  - change (reconcile_times (S (S n)) spec meta body namespace name annotations old s)
      with (let o := manage_ingress spec meta body namespace name annotations old s in
            match result o with
            | inr _ => reconcile_times (S n) spec meta body namespace name
                         annotations old (final o)
            | inl _ => None
            end).
    cbv zeta. destruct (result _) as [e|[]] eqn:Hok; [done|]. intros Hrest%IH.
    rewrite Hrest, (manage_ingress_content content _ _ _ _ _ _ _ _ Hok), Ha, Hv, Hdef.
    apply insert_insert_eq.
Qed.
End Convergence.

Section InMemory.
Implicit Types (spec : ServiceSpec) (meta : Meta) (body : Body)
  (namespace name : string) (annotations : gmap string string)
  (old : option Body) (m : gmap (string * string) V1Ingress).

(** Against the in-memory store a run raises only what the construction of
    the owner reference raises, on the upsert path. *)
Lemma mem_store_result spec meta body namespace name annotations old m :
  result (manage_ingress spec meta body namespace name annotations old m)
  = if annotation_set annotations && valid_ports spec
    then owner_reference_outcome meta body name
    else inr tt.
Proof.
  rewrite (effect_result _ _ (manage_ingress_effect _ _ _ _ _ _ _ _)).
  destruct (annotation_set annotations) eqn:Ha; cbn [andb].
  - destruct (valid_ports spec) eqn:Hv; [|done].
    pose proof (desired_ingress_built spec meta body name annotations Ha Hv) as Hb.
    destruct (desired_ingress spec meta body name annotations) as [def|] eqn:Hdef;
      [|done].
    rewrite Hb, create_or_update_effect. cbn.
    destruct (m !! (namespace, ingress_name name)) eqn:E; cbn.
    + by rewrite E.
    + by rewrite (desired_ingress_name _ _ _ _ _ _ Hdef), E.
  - destruct (prior_annotation_set old); [|done].
    rewrite delete_ingress_effect. cbn.
    by destruct (m !! (namespace, ingress_name name)).
Qed.

(** Against the in-memory store no run raises for a Service that has its
    apiVersion and its uid. *)
Lemma mem_store_never_raises spec meta body namespace name annotations old m :
  is_Some (body_apiVersion body) → is_Some (meta_uid meta) →
  result (manage_ingress spec meta body namespace name annotations old m) = inr tt.
Proof.
  intros Hapi Huid. rewrite mem_store_result.
  destruct (_ && _); [|done].
  by apply owner_reference_outcome_normal.
Qed.

(** C2. Idempotent upsert: with the annotation set and valid ports, for a
    Service that has its apiVersion and its uid (the owner reference can be
    built), any number of consecutive runs against the same store, one or
    more, all return normally and leave the same store: the store they
    started from with the computed definition under its name.  The content
    after the second run is the content after the first. *)
Theorem upsert_is_idempotent spec meta body namespace name annotations old m n :
  annotation_set annotations = true →
  valid_ports spec = true →
  is_Some (body_apiVersion body) →
  is_Some (meta_uid meta) →
  ∃ def, desired_ingress spec meta body name annotations = Some def ∧
    reconcile_times (S n) spec meta body namespace name annotations old m
    = Some (<[(namespace, ingress_name name) := def]> m).
Proof.
  intros Ha Hv Hapi Huid.
  destruct (desired_ingress_defined spec meta body name annotations Ha Hv Hapi Huid)
    as [def Hdef].
  exists def. split; [done|].
  assert (∀ m', is_Some (reconcile_times (S n) spec meta body namespace name
                           annotations old m')) as Htotal.
  { induction n as [|n IH]; intros m'.
    - cbn. rewrite mem_store_never_raises by done. eauto.
    - change (is_Some
                (let o := manage_ingress spec meta body namespace name annotations
                            old m' in
                 match result o with
                 | inr _ => reconcile_times (S n) spec meta body namespace name
                              annotations old (final o)
                 | inl _ => None
                 end)).
      cbv zeta. rewrite mem_store_never_raises by done. apply IH. }
  destruct (Htotal m) as [m' Hm']. rewrite Hm'. f_equal.
  apply (reconcile_times_content id _ _ _ _ _ _ _ _ _ Ha Hv Hdef _ _ Hm').
Qed.
End InMemory.

(** ** Further properties of the handlers *)

Section Further.
Context {Store : Type} `{!NetworkingV1Api Store}.
Context (content : Store → gmap (string * string) V1Ingress).
Context `{!StoreContract Store content}.
Implicit Types (spec : ServiceSpec) (meta : Meta) (body : Body)
  (namespace name : string) (annotations : gmap string string)
  (old : option Body) (s : Store).

(** X1. Scenario D in general: with the annotation not set now and not set
    before, the handler returns normally, makes no client call and leaves the
    store as it was. *)
Theorem nothing_to_do spec meta body namespace name annotations old s :
  annotation_set annotations = false →
  prior_annotation_set old = false →
  effect (manage_ingress spec meta body namespace name annotations old s)
  = (inr tt, s, []).
Proof. intros Ha Hp. by rewrite manage_ingress_effect, Ha, Hp. Qed.

(** X2. The deletion observer only logs: it returns normally, makes no client
    call and leaves the store as it was. *)
Theorem deletion_is_only_logged meta name namespace s :
  effect (log_service_deletion meta name namespace s) = (inr tt, s, []) ∧
  length (logged INFO (trace (log_service_deletion meta name namespace s))) = 1%nat.
Proof. split; reflexivity. Qed.

(** X3. Content freshness (P3): when a second event for the same Service, with
    whatever annotation value and first port it now has, is reconciled after
    a first one, the Ingress in the store is the definition computed from the
    second event's values. *)
Theorem content_is_fresh spec1 meta1 body1 annotations1 old1
    spec2 meta2 body2 annotations2 old2 namespace name s :
  let o1 := manage_ingress spec1 meta1 body1 namespace name annotations1 old1 s in
  let o2 := manage_ingress spec2 meta2 body2 namespace name annotations2 old2 (final o1) in
  annotation_set annotations2 = true →
  valid_ports spec2 = true →
  result o2 = inr tt →
  is_Some (desired_ingress spec2 meta2 body2 name annotations2) ∧
  content (final o2) !! (namespace, ingress_name name)
  = desired_ingress spec2 meta2 body2 name annotations2.
Proof.
  intros o1 o2 Ha Hv Hok. subst o2.
  destruct (normal_return_has_definition _ _ _ _ _ _ _ _ Ha Hv Hok) as [def Hdef].
  rewrite (manage_ingress_content content _ _ _ _ _ _ _ _ Hok), Ha, Hv, Hdef.
  split; [by eexists|apply lookup_insert_eq].
Qed.

(** X4. A run that returns normally leaves every other Ingress of the store
    as it was. *)
Theorem other_ingresses_untouched spec meta body namespace name annotations old s k :
  let o := manage_ingress spec meta body namespace name annotations old s in
  result o = inr tt →
  k ≠ (namespace, ingress_name name) →
  content (final o) !! k = content s !! k.
Proof.
  intros o Hok Hk. subst o.
  rewrite (manage_ingress_content content _ _ _ _ _ _ _ _ Hok).
  destruct (annotation_set annotations).
  - destruct (valid_ports spec), (desired_ingress spec meta body name annotations);
      try done.
    by rewrite lookup_insert_ne.
  - destruct (prior_annotation_set old); [|done]. by rewrite lookup_delete_ne.
Qed.
End Further.

(** ** What a run logs *)

Section Logs.
Context {Store : Type} `{!NetworkingV1Api Store}.
Implicit Types (spec : ServiceSpec) (meta : Meta) (body : Body)
  (namespace name : string) (annotations : gmap string string)
  (old : option Body) (s : Store).

(** The error records of the upsert block, by what the store answers. *)
Lemma create_or_update_errors namespace name def s :
  logged ERROR (trace (create_or_update namespace name def s)) =
  let failed e :=
    if is_ApiException e
    then ["Failed to create or update Ingress " +:+ ingress_name name +:+ ": "
          +:+ exn_str e]
    else [] in
  let '(r, s1) := read_namespaced_ingress (ingress_name name) namespace s in
  match r with
  | inr _ =>
      match (replace_namespaced_ingress (ingress_name name) namespace def s1).1 with
      | inl e => failed e
      | inr _ => []
      end
  | inl e =>
      if status_eq e 404 then
        match (create_namespaced_ingress namespace def s1).1 with
        | inl e2 => failed e2
        | inr _ => []
        end
      else if is_ApiException e
           then ("Error checking for existing Ingress: " +:+ exn_str e) :: failed e
           else []
  end.
Proof. unfold_handler. repeat (answer; cbn [fst andb]); reflexivity. Qed.

Lemma delete_ingress_errors name namespace s :
  logged ERROR (trace (delete_ingress name namespace s)) =
  match (delete_namespaced_ingress (ingress_name name) namespace s).1 with
  | inl e =>
      if is_ApiException e && negb (status_eq e 404)
      then ["Failed to delete Ingress " +:+ ingress_name name +:+ ": " +:+ exn_str e]
      else []
  | inr _ => []
  end.
Proof. unfold_handler. repeat (answer; cbn [fst andb]); reflexivity. Qed.

(** The records of one level that the handler itself adds around the two
    blocks: the warnings of the validation, and nothing at the error level. *)
Lemma manage_ingress_errors spec meta body namespace name annotations old s :
  logged ERROR (trace (manage_ingress spec meta body namespace name annotations old s)) =
  if annotation_set annotations then
    match valid_ports spec, desired_ingress spec meta body name annotations with
    | true, Some def => logged ERROR (trace (create_or_update namespace name def s))
    | _, _ => []
    end
  else if prior_annotation_set old
       then logged ERROR (trace (delete_ingress name namespace s))
       else [].
Proof.
  unfold annotation_set, prior_annotation_set, valid_ports, no_ports,
    first_port_unusable, desired_ingress.
  unfold manage_ingress. cbv [mbind M_bind bind log evaluate].
  cbn [result final trace].
  destruct (annotations !! AUTO_INGRESS_ANNOTATION) as [[|c path]|]; cbn.
  1, 3: destruct (truthy (old_auto_ingress_path_of old));
    [by destruct (delete_ingress name namespace s) as [[]]|reflexivity].
  destruct spec as [[[|[pn pp] rest]|]]; cbn; try reflexivity.
  destruct (negb (truthy pn) && negb (truthy pp)); [reflexivity|]. cbn.
  destruct (ingress_def _ _ _ _ _) as [e|def]; [reflexivity|].
  by destruct (create_or_update _ _ _ s) as [[]].
Qed.
End Logs.

Section LoggedClaims.
Context {Store : Type} `{!NetworkingV1Api Store}.
Implicit Types (spec : ServiceSpec) (meta : Meta) (body : Body)
  (namespace name : string) (annotations : gmap string string)
  (old : option Body) (s : Store).

(** X6. An error is logged exactly when the run ends in an [ApiException]:
    a run that returns normally, or that ends in an exception of another
    class, logs nothing at the error level. *)
Theorem error_logged_iff_api_exception spec meta body namespace name annotations old s :
  let o := manage_ingress spec meta body namespace name annotations old s in
  logged ERROR (trace o) = [] ↔ raised_ApiException (result o) = false.
Proof.
  intros o. subst o.
  rewrite manage_ingress_errors,
    (effect_result _ _ (manage_ingress_effect _ _ _ _ _ _ _ _)).
  destruct (annotation_set annotations).
  - destruct (valid_ports spec); [|done].
    destruct (desired_ingress spec meta body name annotations).
    + rewrite create_or_update_errors, create_or_update_effect.
      destruct (read_namespaced_ingress _ _ s) as [[e|i] s1].
      * destruct e as [[st|] tx|tx]; cbn [status_eq exn_status is_ApiException];
          try done.
        destruct (st =? 404)%Z; [|done].
        by destruct (create_namespaced_ingress _ _ s1) as [[[]|] s2].
      * by destruct (replace_namespaced_ingress _ _ _ s1) as [[[]|] s2].
    + cbn [fst]. by rewrite owner_reference_outcome_not_api.
  - destruct (prior_annotation_set old); [|done].
    rewrite delete_ingress_errors, delete_ingress_effect.
    destruct (delete_namespaced_ingress _ _ s) as [[[[st|] tx|tx]|[]] s1];
      cbn [fst status_eq exn_status is_ApiException andb negb]; try done.
    by destruct (st =? 404)%Z.
Qed.

(** X7. A failed lookup is logged twice.  On the upsert path, for a Service
    that has its apiVersion and its uid, when the lookup
    raises an [ApiException] whose status is not 404, the inner handler logs
    it and re-raises, and the outer handler logs it again: the run leaves two
    error records, both carrying the text of the exception. *)
Theorem lookup_failure_is_logged_twice spec meta body namespace name annotations old s e :
  annotation_set annotations = true →
  valid_ports spec = true →
  is_Some (body_apiVersion body) →
  is_Some (meta_uid meta) →
  (read_namespaced_ingress (ingress_name name) namespace s).1 = inl e →
  is_ApiException e = true →
  status_eq e 404 = false →
  logged ERROR (trace (manage_ingress spec meta body namespace name annotations old s))
  = [ "Error checking for existing Ingress: " +:+ exn_str e;
      "Failed to create or update Ingress " +:+ ingress_name name +:+ ": " +:+ exn_str e ].
Proof.
  intros Ha Hv Hversion Huid Hread Hapi Hst.
  destruct (desired_ingress_defined spec meta body name annotations Ha Hv Hversion Huid)
    as [def Hdef].
  rewrite manage_ingress_errors, Ha, Hv, Hdef, create_or_update_errors.
  destruct (read_namespaced_ingress _ _ s) as [r s1]. cbn [fst] in Hread. subst r.
  cbv zeta. by rewrite Hst, !Hapi.
Qed.

(** X8. A warning is logged exactly when the validation fails: the annotation
    is set and the ports are not valid. *)
Theorem warning_iff_validation_failure spec meta body namespace name annotations old s :
  logged WARNING (trace (manage_ingress spec meta body namespace name annotations old s))
  ≠ [] ↔
  annotation_set annotations = true ∧ valid_ports spec = false.
Proof.
  unfold annotation_set, valid_ports, no_ports, first_port_unusable.
  unfold_handler.
  destruct (annotations !! AUTO_INGRESS_ANNOTATION) as [[|c path]|];
    cbn [truthy truthy_optional truthy_str].
  1, 3: destruct (truthy (old_auto_ingress_path_of old));
    repeat answer; cbn; split; try done; by intros [? ?].
  destruct spec as [[[|[pn pp] rest]|]]; cbn [spec_ports port_name port_port truthy_list].
  - cbn. split; [done|]. by intros _.
  - cbn [negb andb]. destruct (negb (truthy pn) && negb (truthy pp)).
    + cbn. split; [done|]. by intros _.
    + destruct (ingress_def _ _ _ _ _) as [e|def];
        repeat answer; cbn; split; try done; by intros [? ?].
  - cbn. split; [done|]. by intros _.
Qed.

(** X9. A failed write is fatal whatever its status.  On the upsert path,
    for a Service that has its apiVersion and its uid, a
    replace that raises, 404 included, and a create that raises, 409
    included, end the run with that exception after two calls: the handler
    does not fall back to the other call and does not retry. *)
Theorem write_failure_is_fatal spec meta body namespace name annotations old s :
  annotation_set annotations = true →
  valid_ports spec = true →
  is_Some (body_apiVersion body) →
  is_Some (meta_uid meta) →
  let o := manage_ingress spec meta body namespace name annotations old s in
  ∃ def, desired_ingress spec meta body name annotations = Some def ∧
    (∀ found s1 e,
       read_namespaced_ingress (ingress_name name) namespace s = (inr found, s1) →
       (replace_namespaced_ingress (ingress_name name) namespace def s1).1 = inl e →
       result o = inl e ∧
       calls (trace o) = [ReadIngress (ingress_name name) namespace;
                          ReplaceIngress (ingress_name name) namespace def]) ∧
    (∀ e0 s1 e,
       read_namespaced_ingress (ingress_name name) namespace s = (inl e0, s1) →
       status_eq e0 404 = true →
       (create_namespaced_ingress namespace def s1).1 = inl e →
       result o = inl e ∧
       calls (trace o) = [ReadIngress (ingress_name name) namespace;
                          CreateIngress namespace def]).
Proof.
  intros Ha Hv Hversion Huid o.
  destruct (desired_ingress_defined spec meta body name annotations Ha Hv Hversion Huid)
    as [def Hdef].
  exists def. split; [done|]. subst o.
  rewrite (effect_calls _ _ (manage_ingress_effect _ _ _ _ _ _ _ _)),
    (effect_result _ _ (manage_ingress_effect _ _ _ _ _ _ _ _)), Ha, Hv, Hdef.
  rewrite create_or_update_effect.
  split.
  - intros found s1 e -> Hw.
    destruct (replace_namespaced_ingress _ _ _ s1) as [r2 s2]. cbn [fst] in Hw. by subst r2.
  - intros e0 s1 e -> -> Hw.
    destruct (create_namespaced_ingress _ _ s1) as [r2 s2]. cbn [fst] in Hw. by subst r2.
Qed.

(** X5. Every client call of a run addresses the Ingress of the Service at
    hand: the event's namespace and the name [auto-ingress-<name>-http], for
    a create the name inside the body. *)
Theorem calls_address_own_ingress spec meta body namespace name annotations old s :
  Forall (λ c, call_target c = (namespace, ingress_name name))
    (calls (trace (manage_ingress spec meta body namespace name annotations old s))).
Proof.
  rewrite (effect_calls _ _ (manage_ingress_effect _ _ _ _ _ _ _ _)).
  destruct (annotation_set annotations).
  - destruct (valid_ports spec); [|by constructor].
    destruct (desired_ingress spec meta body name annotations) as [def|] eqn:Hdef;
      [|by constructor].
    rewrite create_or_update_effect.
    destruct (read_namespaced_ingress _ _ s) as [[e|i] s1].
    + destruct (status_eq e 404); [|by repeat constructor].
      destruct (create_namespaced_ingress _ _ s1). repeat constructor.
      cbn. by rewrite (desired_ingress_name _ _ _ _ _ _ Hdef).
    + destruct (replace_namespaced_ingress _ _ _ s1). by repeat constructor.
  - destruct (prior_annotation_set old); [|by constructor].
    rewrite delete_ingress_effect.
    destruct (delete_namespaced_ingress _ _ s). by repeat constructor.
Qed.

(** X10. The calls follow the decision table and nothing else: a lookup, a
    create or a replace is made only for a Service whose annotation is set
    and whose ports are valid, and a delete only for a Service whose
    annotation is not set and was set before.  The handler never deletes the
    Ingress of a Service that carries the annotation. *)
Theorem calls_follow_the_decision spec meta body namespace name annotations old s c :
  c ∈ calls (trace (manage_ingress spec meta body namespace name annotations old s)) →
  if is_upsert_call c
  then annotation_set annotations = true ∧ valid_ports spec = true
  else annotation_set annotations = false ∧ prior_annotation_set old = true.
Proof.
  rewrite (effect_calls _ _ (manage_ingress_effect _ _ _ _ _ _ _ _)).
  destruct (annotation_set annotations).
  - destruct (valid_ports spec), (desired_ingress spec meta body name annotations);
      try (cbn; by intros ?%elem_of_nil).
    rewrite create_or_update_effect.
    destruct (read_namespaced_ingress _ _ s) as [[e|i] s1].
    + destruct (status_eq e 404).
      * destruct (create_namespaced_ingress _ _ s1). cbn.
        intros [->|[->|?%elem_of_nil]%elem_of_cons]%elem_of_cons; done.
      * cbn. by intros ->%list_elem_of_singleton.
    + destruct (replace_namespaced_ingress _ _ _ s1). cbn.
      intros [->|[->|?%elem_of_nil]%elem_of_cons]%elem_of_cons; done.
  - destruct (prior_annotation_set old); [|cbn; by intros ?%elem_of_nil].
    rewrite delete_ingress_effect.
    destruct (delete_namespaced_ingress _ _ s). cbn.
    by intros ->%list_elem_of_singleton.
Qed.

(** X11. The backend port of whatever a run writes has exactly one of its two
    fields set: a non-empty name and no number, or no name and a non-zero
    number. *)
Theorem written_backend_port_is_well_formed
    spec meta body namespace name annotations old s b p :
  b ∈ written (trace (manage_ingress spec meta body namespace name annotations old s)) →
  p ∈ backend_ports b →
  (truthy (sbp_name p) = true ∧ sbp_number p = None) ∨
  (sbp_name p = None ∧ truthy (sbp_number p) = true).
Proof.
  intros Hb. pose proof (written_is_desired _ _ _ _ _ _ _ _ _ Hb) as Hdef.
  revert Hb. unfold written.
  rewrite (effect_calls _ _ (manage_ingress_effect _ _ _ _ _ _ _ _)), Hdef.
  destruct (annotation_set annotations); [|].
  - destruct (valid_ports spec) eqn:Hv; [|cbn; by intros ?%elem_of_nil].
    intros _.
    destruct (desired_ingress_inv _ _ _ _ _ _ Hdef) as (path & q & _ & Hhead & ->).
    revert Hhead Hv. unfold valid_ports, no_ports, first_port_unusable.
    destruct spec as [[[|[pn pp] rest]|]]; cbn; try done.
    intros [= <-]. cbn. unfold backend_port. cbn.
    destruct (truthy pn) eqn:Hn; cbn; intros Hpp ->%list_elem_of_singleton; cbn.
    + by left.
    + right. split; [done|]. by destruct (truthy pp).
  - destruct (prior_annotation_set old); [|cbn; by intros ?%elem_of_nil].
    rewrite delete_ingress_effect.
    destruct (delete_namespaced_ingress _ _ s). cbn. by intros ?%elem_of_nil.
Qed.
(** X15. A Service without apiVersion or uid: on the upsert path the
    construction of the owner reference raises before the lookup.  The run
    ends in that exception, which is not an [ApiException], makes no client
    call, leaves the store as it was and logs no error. *)
Theorem owner_reference_failure_is_fatal spec meta body namespace name annotations old s :
  annotation_set annotations = true →
  valid_ports spec = true →
  body_apiVersion body = None ∨ meta_uid meta = None →
  let o := manage_ingress spec meta body namespace name annotations old s in
  ∃ e, result o = inl e ∧ is_ApiException e = false ∧
    final o = s ∧ calls (trace o) = [] ∧ logged ERROR (trace o) = [].
Proof.
  intros Ha Hv Hmissing o. subst o.
  rewrite manage_ingress_errors,
    (effect_result _ _ (manage_ingress_effect _ _ _ _ _ _ _ _)),
    (effect_final _ _ (manage_ingress_effect _ _ _ _ _ _ _ _)),
    (effect_calls _ _ (manage_ingress_effect _ _ _ _ _ _ _ _)), Ha, Hv.
  pose proof (desired_ingress_built spec meta body name annotations Ha Hv) as Hb.
  pose proof (owner_reference_outcome_not_api meta body name) as Hnot.
  destruct (desired_ingress spec meta body name annotations) as [def|].
  - apply owner_reference_outcome_normal in Hb as [[? Hversion] [? Huid]].
    destruct Hmissing; congruence.
  - destruct Hb as [e He]. rewrite He in Hnot |- *. by exists e.
Qed.
End LoggedClaims.

(** ** How runs compose *)

(** The text of a concatenation is the concatenation of the texts. *)
Lemma list_ascii_of_string_app (s1 s2 : string) :
  String.list_ascii_of_string (s1 +:+ s2)
  = (String.list_ascii_of_string s1 ++ String.list_ascii_of_string s2)%list.
Proof. induction s1 as [|a s1 IH]; cbn; [done|]. by rewrite <- IH. Qed.

(** Distinct Services have distinct Ingress names. *)
#[global] Instance ingress_name_inj : Inj (=) (=) ingress_name.
Proof.
  intros n1 n2 Hn. unfold ingress_name in Hn.
  apply (inj (String.append "auto-ingress-")) in Hn.
  apply (f_equal String.list_ascii_of_string) in Hn.
  rewrite !list_ascii_of_string_app in Hn.
  apply (inj (λ l, l ++ String.list_ascii_of_string "-http")%list) in Hn.
  by rewrite <- (String.string_of_list_ascii_of_string n1),
    <- (String.string_of_list_ascii_of_string n2), Hn.
Qed.

Section Composition.
Context {Store : Type} `{!NetworkingV1Api Store}.
Context (content : Store → gmap (string * string) V1Ingress).
Context `{!StoreContract Store content}.
Implicit Types (spec : ServiceSpec) (meta : Meta) (body : Body)
  (namespace name : string) (annotations : gmap string string)
  (old : option Body) (s : Store).

(** X12. Services do not interfere: a run for one Service that returns
    normally leaves the Ingress of every other Service of the namespace, by
    its deterministic name, as it was. *)
Theorem services_do_not_interfere spec meta body namespace name annotations old s other :
  let o := manage_ingress spec meta body namespace name annotations old s in
  other ≠ name →
  result o = inr tt →
  content (final o) !! (namespace, ingress_name other)
  = content s !! (namespace, ingress_name other).
Proof.
  intros o Hother Hok. subst o.
  assert ((namespace, ingress_name name) ≠ (namespace, ingress_name other)) as Hk.
  { intros Hk%(f_equal snd). cbn [snd] in Hk. by apply (inj ingress_name) in Hk. }
  rewrite (manage_ingress_content content _ _ _ _ _ _ _ _ Hok).
  destruct (annotation_set annotations).
  - destruct (valid_ports spec), (desired_ingress spec meta body name annotations);
      try done.
    by rewrite lookup_insert_ne.
  - destruct (prior_annotation_set old); [|done]. by rewrite lookup_delete_ne.
Qed.

(** X13. Annotate, then remove: when an event for a Service is reconciled and
    then an event with the annotation not set and a prior annotation set,
    both returning normally, the Ingress is gone, whatever the first run did;
    and if there was no Ingress before the first run, the store holds what it
    held then. *)
Theorem annotate_then_remove spec1 meta1 body1 annotations1 old1
    spec2 meta2 body2 annotations2 old2 namespace name s :
  let o1 := manage_ingress spec1 meta1 body1 namespace name annotations1 old1 s in
  let o2 := manage_ingress spec2 meta2 body2 namespace name annotations2 old2 (final o1) in
  let k := (namespace, ingress_name name) in
  annotation_set annotations2 = false →
  prior_annotation_set old2 = true →
  result o1 = inr tt →
  result o2 = inr tt →
  content (final o2) !! k = None ∧
  (content s !! k = None → content (final o2) = content s).
Proof.
  intros o1 o2 k Ha Hp Hok1 Hok2. subst o1 o2 k.
  rewrite (manage_ingress_content content _ _ _ _ _ _ _ _ Hok2), Ha, Hp.
  split; [apply lookup_delete_eq|]. intros Hnone.
  rewrite (manage_ingress_content content _ _ _ _ _ _ _ _ Hok1).
  destruct (annotation_set annotations1).
  - destruct (valid_ports spec1), (desired_ingress spec1 meta1 body1 name annotations1);
      try by apply delete_id.
    by apply delete_insert_id.
  - destruct (prior_annotation_set old1); [|by apply delete_id].
    rewrite delete_delete_eq. by apply delete_id.
Qed.
End Composition.

Section Idempotence.
Implicit Types (spec : ServiceSpec) (meta : Meta) (body : Body)
  (namespace name : string) (annotations : gmap string string)
  (old : option Body) (m : gmap (string * string) V1Ingress).

(** On the in-memory store a second run after one that returned normally
    returns normally and changes nothing. *)
Lemma second_run_changes_nothing spec meta body namespace name annotations old m :
  let run := manage_ingress spec meta body namespace name annotations old in
  result (run m) = inr tt →
  result (run (final (run m))) = inr tt ∧
  final (run (final (run m))) = final (run m).
Proof.
  intros run Hok. subst run.
  assert (result (manage_ingress spec meta body namespace name annotations old
                    (final (manage_ingress spec meta body namespace name annotations
                              old m))) = inr tt) as Hok2.
  { rewrite mem_store_result. by rewrite mem_store_result in Hok. }
  split; [done|].
  pose proof (manage_ingress_content id spec meta body namespace name annotations old)
    as Hrun.
  unfold id in Hrun. rewrite (Hrun _ Hok2), (Hrun _ Hok).
  destruct (annotation_set annotations).
  - destruct (valid_ports spec), (desired_ingress spec meta body name annotations);
      try done.
    apply insert_insert_eq.
  - destruct (prior_annotation_set old); [|done]. apply delete_delete_eq.
Qed.

(** X14. Idempotence on every path: for every Service state, upsert, removal,
    failed validation or nothing to do, when a run against the in-memory
    store returns normally, any number of consecutive runs, one or more, all
    return normally and leave the store the first run left. *)
Theorem reconcile_is_idempotent spec meta body namespace name annotations old m n :
  result (manage_ingress spec meta body namespace name annotations old m) = inr tt →
  reconcile_times (S n) spec meta body namespace name annotations old m
  = Some (final (manage_ingress spec meta body namespace name annotations old m)).
Proof.
  revert m. induction n as [|n IH]; intros m Hok.
  - cbn. by rewrite Hok.
  - change (reconcile_times (S (S n)) spec meta body namespace name annotations old m)
      with (let o := manage_ingress spec meta body namespace name annotations old m in
            match result o with
            | inr _ => reconcile_times (S n) spec meta body namespace name
                         annotations old (final o)
            | inl _ => None
            end).
    cbv zeta. rewrite Hok.
    destruct (second_run_changes_nothing spec meta body namespace name annotations old
                m Hok) as [Hok2 Hsame].
    by rewrite (IH _ Hok2), Hsame.
Qed.
End Idempotence.

(** ** The convergence claim as the specification words it *)

(** C1 as claimed fails.  Service [svc1] carries the annotation and has an
    empty port list, and its Ingress is in the store from an earlier run: the
    handler warns, returns normally and leaves the Ingress where it is,
    though the ports are not valid. *)
Lemma convergence_as_claimed_fails : ¬ convergence_as_claimed.
Proof.
  intros H.
  specialize (H Scenario.portless Scenario.meta Scenario.body "ns1" "svc1"
                Scenario.annotated None Scenario.store_with_ingress).
  cbv zeta in H. destruct H as [H _]; [by_evaluation|].
  assert (annotation_set Scenario.annotated && valid_ports Scenario.portless = true)
    as Hdesired.
  { apply H. exists Scenario.ingress. by_evaluation. }
  vm_compute in Hdesired. discriminate Hdesired.
Qed.

(** The other way the claim fails: a Service without the annotation is
    resumed (no prior body), and the Ingress of an earlier run stays. *)
Example stale_ingress_survives_resume :
  let o := manage_ingress Scenario.spec Scenario.meta (Scenario.body_of Scenario.bare)
             "ns1" "svc1" Scenario.bare None Scenario.store_with_ingress in
  effect o = (inr tt, Scenario.store_with_ingress, []) ∧
  annotation_set Scenario.bare = false.
Proof. split; by_evaluation. Qed.

(** ** The scenarios of the specification *)

Section Scenarios.
Import Scenario.

(** Scenario A: the annotated Service with port [http]: a lookup, then the
  create of [auto-ingress-svc1-http] with path [/svc1] and backend port
  [{name: http}]. *)
Example scenario_A :
  effect (manage_ingress spec meta body "ns1" "svc1" annotated None empty_store)
  = (inr tt, store_with_ingress,
     [ReadIngress "auto-ingress-svc1-http" "ns1"; CreateIngress "ns1" ingress]).
Proof. by_evaluation. Qed.

(** Scenario B: the annotation removed on update. *)
Example scenario_B :
  effect (manage_ingress spec meta (body_of bare) "ns1" "svc1" bare (Some body)
            store_with_ingress)
  = (inr tt, empty_store, [DeleteIngress "auto-ingress-svc1-http" "ns1"]).
Proof. by_evaluation. Qed.

(** Scenario C: no ports, one warning, no client call. *)
Example scenario_C :
  trace (manage_ingress portless meta body "ns1" "svc1" annotated None empty_store)
  = [Logged INFO "Processing service ns1/svc1";
     Logged INFO "Found/Updated 'auto-ingress: /svc1' annotation for service ns1/svc1.";
     Logged WARNING "Service ns1/svc1 has no ports defined. Cannot create/update Ingress."].
Proof. by_evaluation. Qed.

(** Scenario D: no annotation now or before, no client call. *)
Example scenario_D :
  effect (manage_ingress spec meta (body_of bare) "ns1" "svc1" bare None empty_store)
  = (inr tt, empty_store, []).
Proof. by_evaluation. Qed.

(** ** The theorems at work on the scenarios *)

Lemma validation_failure_is_harmless_witness :
  let run spec :=
    manage_ingress spec meta body "ns1" "svc1" annotated None store_with_ingress in
  let harmless o :=
    result o = inr tt ∧ final o = store_with_ingress ∧ calls (trace o) = [] ∧
    length (logged WARNING (trace o)) = 1%nat ∧ logged ERROR (trace o) = [] in
  annotation_set annotated = true ∧
  no_ports portless = true ∧ harmless (run portless) ∧
  first_port_unusable mute = true ∧ harmless (run mute).
Proof.
  intros run harmless.
  split; [reflexivity|]. split; [reflexivity|]. split; [|split; [reflexivity|]].
  - exact (validation_failure_is_harmless portless meta body "ns1" "svc1" annotated
             None store_with_ingress eq_refl (or_introl eq_refl)).
  - exact (validation_failure_is_harmless mute meta body "ns1" "svc1" annotated
             None store_with_ingress eq_refl (or_intror eq_refl)).
Defined.

Lemma removal_issues_one_delete_witness :
  annotation_set bare = false ∧ prior_annotation_set (Some body) = true ∧
  calls (trace (manage_ingress spec meta (body_of bare) "ns1" "svc1" bare (Some body)
                  store_with_ingress))
  = [DeleteIngress "auto-ingress-svc1-http" "ns1"].
Proof.
  split; [reflexivity|]. split; [reflexivity|].
  apply (removal_issues_one_delete spec meta (body_of bare) "ns1" "svc1" bare (Some body));
    reflexivity.
Defined.

Lemma upsert_lookup_branching_witness :
  (is_Some (body_apiVersion body) ∧ is_Some (meta_uid meta)) ∧
  calls (trace (manage_ingress spec meta body "ns1" "svc1" annotated None empty_store))
  = [ReadIngress "auto-ingress-svc1-http" "ns1"; CreateIngress "ns1" ingress] ∧
  calls (trace (manage_ingress spec meta body "ns1" "svc1" annotated None
                  store_with_ingress))
  = [ReadIngress "auto-ingress-svc1-http" "ns1";
     ReplaceIngress "auto-ingress-svc1-http" "ns1" ingress].
Proof.
  assert (is_Some (body_apiVersion body)) as Hversion by exact (ex_intro _ _ eq_refl).
  assert (is_Some (meta_uid meta)) as Huid by exact (ex_intro _ _ eq_refl).
  split; [by split|]. split.
  - destruct (upsert_lookup_branching spec meta body "ns1" "svc1" annotated None
                empty_store eq_refl eq_refl Hversion Huid)
      as (def & Hdef & _ & Hcreate & _).
    injection Hdef as <-.
    exact (Hcreate (ApiException (Some 404%Z) "Not Found") eq_refl eq_refl).
  - destruct (upsert_lookup_branching spec meta body "ns1" "svc1" annotated None
                store_with_ingress eq_refl eq_refl Hversion Huid)
      as (def & Hdef & Hreplace & _).
    injection Hdef as <-.
    exact (Hreplace ingress eq_refl).
Defined.

Lemma delete_not_found_is_success_witness :
  let o := manage_ingress spec meta (body_of bare) "ns1" "svc1" bare (Some body)
             empty_store in
  annotation_set bare = false ∧ prior_annotation_set (Some body) = true ∧
  result o = inr tt ∧ logged ERROR (trace o) = [].
Proof.
  split; [reflexivity|]. split; [reflexivity|].
  destruct (delete_not_found_is_success spec meta (body_of bare) "ns1" "svc1" bare
              (Some body) empty_store eq_refl eq_refl) as [Hfound _].
  exact (Hfound (ApiException (Some 404%Z) "Not Found") eq_refl eq_refl).
Defined.

Lemma written_ingress_is_field_exact_witness :
  let o := manage_ingress spec meta body "ns1" "svc1" annotated None empty_store in
  written (trace o) = [ingress] ∧
  ∃ path port,
    annotated !! AUTO_INGRESS_ANNOTATION = Some path ∧
    om_name (ing_metadata ingress) = "auto-ingress-" +:+ "svc1" +:+ "-http" ∧
    om_annotations (ing_metadata ingress)
    = {[ "traefik.ingress.kubernetes.io/router.entrypoints" := "web" ]} ∧
    om_owner_references (ing_metadata ingress)
    = [ {| or_api_version := body_apiVersion body; or_kind := "Service";
           or_name := "svc1"; or_uid := meta_uid meta;
           or_controller := true; or_block_owner_deletion := true |} ] ∧
    is_rules (ing_spec ingress)
    = [ {| ir_http :=
             {| hirv_paths :=
                  [ {| hip_path := path; hip_path_type := "Prefix";
                       hip_backend :=
                         {| ib_service :=
                              {| isb_name := "svc1"; isb_port := port |} |} |} ] |} |} ].
Proof.
  split; [by_evaluation|].
  apply (written_ingress_is_field_exact spec meta body "ns1" "svc1" annotated None
           empty_store ingress).
  apply list_elem_of_here.
Defined.

Lemma first_port_decides_witness :
  let run ports :=
    manage_ingress {| spec_ports := Some ports |} meta body "ns1" "svc1" annotated
      None empty_store in
  let second := {| port_name := Some "metrics"; port_port := Some 9090%Z |} in
  written (trace (run ([http; second]))) = [ingress] ∧
  run ([http; second]) = run ports ∧
  backend_ports ingress = [ {| sbp_name := Some "http"; sbp_number := None |} ].
Proof.
  intros run second.
  destruct (first_port_decides meta body "ns1" "svc1" annotated None empty_store
              http [second])
    as [Hrun Hport].
  split; [by_evaluation|]. split; [exact Hrun|].
  apply Hport. replace (written _) with [ingress] by by_evaluation.
  apply list_elem_of_here.
Defined.

Lemma empty_annotation_is_absent_witness :
  let run annotations old :=
    manage_ingress spec meta (body_of annotations) "ns1" "svc1" annotations old
      store_with_ingress in
  blank !! AUTO_INGRESS_ANNOTATION = Some "" ∧
  run blank (Some body) = run (delete AUTO_INGRESS_ANNOTATION blank) (Some body) ∧
  List.filter is_upsert_call (calls (trace (run blank (Some body)))) = [] ∧
  effect (run bare (Some (body_of blank))) = (inr tt, store_with_ingress, []).
Proof.
  intros run.
  destruct (empty_annotation_is_absent spec meta (body_of blank) "ns1" "svc1" blank
              (Some body) store_with_ingress) as [Hblank _].
  destruct (empty_annotation_is_absent spec meta (body_of bare) "ns1" "svc1" bare
              (Some (body_of blank)) store_with_ingress) as [_ Hprior].
  split; [reflexivity|].
  destruct (Hblank eq_refl) as [Hsame Hcalls].
  split; [exact Hsame|]. split; [exact Hcalls|].
  exact (Hprior eq_refl eq_refl).
Defined.

Lemma existence_after_reconcile_witness :
  let o := manage_ingress spec meta body "ns1" "svc1" annotated None empty_store in
  let k := ("ns1", ingress_name "svc1") in
  result o = inr tt ∧
  (is_Some (final o !! k) ↔
     annotation_set annotated && valid_ports spec = true ∨
     (left_alone spec annotated None = true ∧ is_Some (empty_store !! k))).
Proof.
  intros o k.
  assert (result o = inr tt) as Hok by by_evaluation.
  split; [exact Hok|].
  exact (existence_after_reconcile id spec meta body "ns1" "svc1" annotated None empty_store Hok).
Defined.

Lemma upsert_is_idempotent_witness :
  annotation_set annotated = true ∧ valid_ports spec = true ∧
  is_Some (body_apiVersion body) ∧ is_Some (meta_uid meta) ∧
  ∃ def, desired_ingress spec meta body "svc1" annotated = Some def ∧
    reconcile_times 2 spec meta body "ns1" "svc1" annotated None empty_store
    = Some (<[("ns1", ingress_name "svc1") := def]> empty_store).
Proof.
  assert (is_Some (body_apiVersion body)) as Hversion by exact (ex_intro _ _ eq_refl).
  assert (is_Some (meta_uid meta)) as Huid by exact (ex_intro _ _ eq_refl).
  split; [reflexivity|]. split; [reflexivity|].
  split; [exact Hversion|]. split; [exact Huid|].
  exact (upsert_is_idempotent spec meta body "ns1" "svc1" annotated None empty_store 1
           eq_refl eq_refl Hversion Huid).
Defined.

Lemma nothing_to_do_witness :
  annotation_set bare = false ∧ prior_annotation_set None = false ∧
  effect (manage_ingress spec meta (body_of bare) "ns1" "svc1" bare None
            store_with_ingress)
  = (inr tt, store_with_ingress, []).
Proof.
  split; [reflexivity|]. split; [reflexivity|].
  exact (nothing_to_do spec meta (body_of bare) "ns1" "svc1" bare None
           store_with_ingress eq_refl eq_refl).
Defined.

Lemma content_is_fresh_witness :
  let moved : gmap string string := {[ AUTO_INGRESS_ANNOTATION := "/v2" ]} in
  let o1 := manage_ingress spec meta body "ns1" "svc1" annotated None empty_store in
  let o2 := manage_ingress spec meta (body_of moved) "ns1" "svc1" moved (Some body)
              (final o1) in
  result o2 = inr tt ∧
  is_Some (desired_ingress spec meta (body_of moved) "svc1" moved) ∧
  final o2 !! ("ns1", ingress_name "svc1")
  = desired_ingress spec meta (body_of moved) "svc1" moved.
Proof.
  intros moved o1 o2.
  assert (result o2 = inr tt) as Hok by by_evaluation.
  split; [exact Hok|].
  exact (content_is_fresh id spec meta body annotated None spec meta (body_of moved)
           moved (Some body) "ns1" "svc1" empty_store eq_refl eq_refl Hok).
Defined.

Lemma other_ingresses_untouched_witness :
  let o := manage_ingress spec meta (body_of bare) "ns1" "svc1" bare (Some body)
             store_with_ingress in
  let k := ("ns2", "auto-ingress-svc1-http") in
  result o = inr tt ∧ k ≠ ("ns1", ingress_name "svc1") ∧
  final o !! k = store_with_ingress !! k.
Proof.
  intros o k.
  assert (result o = inr tt) as Hok by by_evaluation.
  assert (k ≠ ("ns1", ingress_name "svc1")) as Hk by discriminate.
  split; [exact Hok|]. split; [exact Hk|].
  exact (other_ingresses_untouched id spec meta (body_of bare) "ns1" "svc1" bare
           (Some body) store_with_ingress k Hok Hk).
Defined.

Lemma lookup_failure_is_logged_twice_witness :
  let o := manage_ingress spec meta body "ns1" "svc1" annotated None
             ([inl forbidden] : list (Exn + V1Ingress)) in
  result o = inl forbidden ∧
  logged ERROR (trace o)
  = [ "Error checking for existing Ingress: Forbidden";
      "Failed to create or update Ingress auto-ingress-svc1-http: Forbidden" ].
Proof.
  intros o. split; [by_evaluation|].
  exact (lookup_failure_is_logged_twice spec meta body "ns1" "svc1" annotated None
           ([inl forbidden] : list (Exn + V1Ingress)) forbidden
           eq_refl eq_refl (ex_intro _ _ eq_refl) (ex_intro _ _ eq_refl)
           eq_refl eq_refl eq_refl).
Defined.

Lemma write_failure_is_fatal_witness :
  let run (script : list (Exn + V1Ingress)) :=
    manage_ingress spec meta body "ns1" "svc1" annotated None script in
  (result (run [inr ingress; inl not_found]) = inl not_found ∧
   calls (trace (run [inr ingress; inl not_found]))
   = [ReadIngress "auto-ingress-svc1-http" "ns1";
      ReplaceIngress "auto-ingress-svc1-http" "ns1" ingress]) ∧
  (result (run [inl not_found; inl conflict]) = inl conflict ∧
   calls (trace (run [inl not_found; inl conflict]))
   = [ReadIngress "auto-ingress-svc1-http" "ns1"; CreateIngress "ns1" ingress]).
Proof.
  intros run. split.
  - destruct (write_failure_is_fatal spec meta body "ns1" "svc1" annotated None
                ([inr ingress; inl not_found] : list (Exn + V1Ingress))
                eq_refl eq_refl (ex_intro _ _ eq_refl) (ex_intro _ _ eq_refl))
      as (def & Hdef & Hreplace & _).
    injection Hdef as <-.
    exact (Hreplace ingress [inl not_found] not_found eq_refl eq_refl).
  - destruct (write_failure_is_fatal spec meta body "ns1" "svc1" annotated None
                ([inl not_found; inl conflict] : list (Exn + V1Ingress))
                eq_refl eq_refl (ex_intro _ _ eq_refl) (ex_intro _ _ eq_refl))
      as (def & Hdef & _ & Hcreate).
    injection Hdef as <-.
    exact (Hcreate not_found [inl conflict] conflict eq_refl eq_refl eq_refl).
Defined.

Lemma calls_follow_the_decision_witness :
  let removal := manage_ingress spec meta (body_of bare) "ns1" "svc1" bare (Some body)
                   store_with_ingress in
  let upsert := manage_ingress spec meta body "ns1" "svc1" annotated None empty_store in
  (calls (trace removal) = [DeleteIngress "auto-ingress-svc1-http" "ns1"] ∧
   annotation_set bare = false ∧ prior_annotation_set (Some body) = true) ∧
  (calls (trace upsert)
   = [ReadIngress "auto-ingress-svc1-http" "ns1"; CreateIngress "ns1" ingress] ∧
   annotation_set annotated = true ∧ valid_ports spec = true).
Proof.
  intros removal upsert.
  assert (calls (trace removal) = [DeleteIngress "auto-ingress-svc1-http" "ns1"])
    as Hremoval by by_evaluation.
  assert (calls (trace upsert)
          = [ReadIngress "auto-ingress-svc1-http" "ns1"; CreateIngress "ns1" ingress])
    as Hupsert by by_evaluation.
  split; (split; [assumption|]).
  - apply (calls_follow_the_decision spec meta (body_of bare) "ns1" "svc1" bare
             (Some body) store_with_ingress
             (DeleteIngress "auto-ingress-svc1-http" "ns1")).
    fold removal. rewrite Hremoval. apply list_elem_of_here.
  - apply (calls_follow_the_decision spec meta body "ns1" "svc1" annotated None
             empty_store (CreateIngress "ns1" ingress)).
    fold upsert. rewrite Hupsert. apply list_elem_of_further, list_elem_of_here.
Defined.

Lemma written_backend_port_is_well_formed_witness :
  let numbered := {| spec_ports := Some [ {| port_name := Some "";
                                             port_port := Some 8080%Z |} ] |} in
  let o := manage_ingress numbered meta body "ns1" "svc1" annotated None empty_store in
  let p := {| sbp_name := None; sbp_number := Some 8080%Z |} in
  (backend_ports <$> written (trace o)) = [[p]] ∧
  ((truthy (sbp_name p) = true ∧ sbp_number p = None) ∨
   (sbp_name p = None ∧ truthy (sbp_number p) = true)).
Proof.
  intros numbered o p.
  pose (b := ingress_around "svc1" "/svc1" p
               {| or_api_version := Some "v1"; or_kind := "Service";
                  or_name := "svc1"; or_uid := Some "0b5e6a2c";
                  or_controller := true; or_block_owner_deletion := true |}).
  assert (written (trace o) = [b]) as Hw by by_evaluation.
  split; [by rewrite Hw|].
  apply (written_backend_port_is_well_formed numbered meta body "ns1" "svc1" annotated
           None empty_store b p).
  - fold o. rewrite Hw. apply list_elem_of_here.
  - apply list_elem_of_here.
Defined.

Lemma services_do_not_interfere_witness :
  let o := manage_ingress spec meta (body_of bare) "ns1" "svc2" bare (Some body)
             store_with_ingress in
  "svc1" ≠ "svc2" ∧ result o = inr tt ∧
  final o !! ("ns1", ingress_name "svc1")
  = store_with_ingress !! ("ns1", ingress_name "svc1").
Proof.
  intros o.
  assert ("svc1" ≠ "svc2") as Hne by discriminate.
  assert (result o = inr tt) as Hok by by_evaluation.
  split; [exact Hne|]. split; [exact Hok|].
  exact (services_do_not_interfere id spec meta (body_of bare) "ns1" "svc2" bare
           (Some body) store_with_ingress "svc1" Hne Hok).
Defined.

Lemma annotate_then_remove_witness :
  let o1 := manage_ingress spec meta body "ns1" "svc1" annotated None empty_store in
  let o2 := manage_ingress spec meta (body_of bare) "ns1" "svc1" bare (Some body)
              (final o1) in
  let k := ("ns1", ingress_name "svc1") in
  result o1 = inr tt ∧ result o2 = inr tt ∧
  final o2 !! k = None ∧ (empty_store !! k = None → final o2 = empty_store).
Proof.
  intros o1 o2 k.
  assert (result o1 = inr tt) as Hok1 by by_evaluation.
  assert (result o2 = inr tt) as Hok2 by by_evaluation.
  split; [exact Hok1|]. split; [exact Hok2|].
  exact (annotate_then_remove id spec meta body annotated None spec meta (body_of bare)
           bare (Some body) "ns1" "svc1" empty_store eq_refl eq_refl Hok1 Hok2).
Defined.

Lemma reconcile_is_idempotent_witness :
  let run := manage_ingress spec meta (body_of bare) "ns1" "svc1" bare (Some body) in
  result (run store_with_ingress) = inr tt ∧
  reconcile_times 3 spec meta (body_of bare) "ns1" "svc1" bare (Some body)
    store_with_ingress
  = Some (final (run store_with_ingress)) ∧
  final (run store_with_ingress) = empty_store.
Proof.
  intros run.
  assert (result (run store_with_ingress) = inr tt) as Hok by by_evaluation.
  split; [exact Hok|]. split; [|by_evaluation].
  exact (reconcile_is_idempotent spec meta (body_of bare) "ns1" "svc1" bare (Some body)
           store_with_ingress 2 Hok).
Defined.

Lemma owner_reference_failure_is_fatal_witness :
  let anonymous := {| meta_uid := None; meta_annotations := Some annotated |} in
  let o := manage_ingress spec anonymous body "ns1" "svc1" annotated None
             store_with_ingress in
  result o = inl (NonApiException "Invalid value for `uid`, must not be `None`") ∧
  ∃ e, result o = inl e ∧ is_ApiException e = false ∧
    final o = store_with_ingress ∧ calls (trace o) = [] ∧ logged ERROR (trace o) = [].
Proof.
  intros anonymous o. split; [by_evaluation|].
  exact (owner_reference_failure_is_fatal spec anonymous body "ns1" "svc1" annotated
           None store_with_ingress eq_refl eq_refl (or_intror eq_refl)).
Defined.
End Scenarios.
